(** * Warehouse bin assignment (Notebooks/pulp_optimization.ipynb)

    A shallow embedding of the notebook's single code cell: the two data
    frames, the compatibility dictionary, the PuLP model (decision variables,
    objective, coverage, capacity and compatibility constraints), the call to
    the solver and the printing loop.

    Conventions.
    - The integer columns of the data frames hold 64-bit integers (numpy
      int64).  They are modelled by [Z]; the one place where the cell
      multiplies two of them, the coefficient of the objective, wraps around
      ([int64]).
    - The solver is a third-party program.  It is a parameter of the cell: a
      function from the model to an error (the call can raise
      [PulpSolverError]) or a status code and a value per variable.
    - Variable values are Python floats or [None]; they are modelled by
      [option Q], and the arithmetic of [value] by exact rational arithmetic. *)

From Stdlib Require Import ZArith QArith Qabs Qround Lia Lqa.
From stdpp Require Import gmap strings list fin_maps pretty.

Local Open Scope string_scope.
Local Open Scope Z_scope.

(** ** Python results *)

Inductive PyKey :=
  | Label (i : string)
  | Pair (i b : string).

Inductive PyError :=
  | KeyError (k : PyKey)
  | TypeError
  | PulpSolverError.

Inductive PyResult (A : Type) : Type :=
  | Ok (a : A)
  | Raise (e : PyError).
Arguments Ok {A} a.
Arguments Raise {A} e.

#[global] Instance PyResult_ret : MRet PyResult := λ A a, Ok a.
#[global] Instance PyResult_fmap : FMap PyResult := λ A B f r,
  match r with
  | Ok a => Ok (f a)
  | Raise e => Raise e
  end.
#[global] Instance PyResult_bind : MBind PyResult := λ A B k r,
  match r with
  | Ok a => k a
  | Raise e => Raise e
  end.

(** ** Data frames *)

Record Material := {
  material : string;
  frequency : Z;
  size : Z;
  tag : string
}.

Record Bin := {
  bin : string;
  capacity : Z;
  distance : Z;
  type : string
}.

(** [df.set_index(col).loc[i, c]] as the cell uses it, as a number in a
    product with a PuLP expression: the row labelled [i] when exactly one
    row carries the label; [KeyError] when none does; when several do,
    pandas returns a Series and the product raises [TypeError] (lines 89-91
    and 99).  Line 100 compares with the value instead of multiplying; the
    statements on the model assume unique identifiers, where there is no
    Series. *)
Definition loc {Row : Type} (index : Row → string) (df : list Row) (i : string)
    : PyResult Row :=
  match List.filter (λ r, String.eqb (index r) i) df with
  | [] => Raise (KeyError (Label i))
  | [r] => Ok r
  | _ :: _ :: _ => Raise TypeError
  end.

(** The product of two numpy int64 values: it wraps around. *)
Definition int64 (z : Z) : Z := (z + 2 ^ 63) mod 2 ^ 64 - 2 ^ 63.

(** The identifier columns [materials['material']] and [bins['bin']]. *)
Definition material_col (materials : list Material) : list string :=
  material <$> materials.
Definition bin_col (bins : list Bin) : list string :=
  bin <$> bins.

(** Identifiers are unique in both frames. *)
Definition unique_ids (materials : list Material) (bins : list Bin) : Prop :=
  NoDup (material_col materials) ∧ NoDup (bin_col bins).

(** ** Step 1: the data of the notebook *)

Module Data.

Definition mk_materials (ids : list string) (fs ss : list Z) (ts : list string)
    : list Material :=
  (λ r, {| material := r.1.1.1; frequency := r.1.1.2;
           size := r.1.2; tag := r.2 |})
    <$> zip (zip (zip ids fs) ss) ts.

Definition mk_bins (ids : list string) (cs ds : list Z) (ts : list string)
    : list Bin :=
  (λ r, {| bin := r.1.1.1; capacity := r.1.1.2;
           distance := r.1.2; type := r.2 |})
    <$> zip (zip (zip ids cs) ds) ts.

Definition materials : list Material :=
  mk_materials
    ((λ i : nat, "M" +:+ pretty i) <$> seq 1 10)
    [3; 1; 2; 3; 2; 1; 3; 2; 1; 3]
    [5; 4; 6; 7; 3; 2; 6; 5; 4; 6]
    ["fragile"; "regular"; "hazardous"; "regular"; "regular";
     "hazardous"; "fragile"; "regular"; "hazardous"; "fragile"].

Definition bins : list Bin :=
  mk_bins
    ((λ i : nat, "B" +:+ pretty i) <$> seq 1 5)
    [15; 20; 10; 25; 12]
    [1; 2; 3; 1; 4]
    ["safe"; "regular"; "special"; "regular"; "safe"].

End Data.

(** ** Step 2: the compatibility dictionary *)

(** The body of the two nested loops: the value stored for one pair. *)
Definition compatibility_entry (item : Material) (b : Bin) : Z :=
  if String.eqb (tag item) "fragile" && negb (String.eqb (type b) "safe")
  then 0
  else if String.eqb (tag item) "hazardous"
          && negb (String.eqb (type b) "special")
  then 0
  else 1.

(** The inner loop, over the rows of [bins]. *)
Definition compatibility_row (bins : list Bin)
    (d : gmap (string * string) Z) (item : Material) : gmap (string * string) Z :=
  foldl (λ d b, <[(material item, bin b) := compatibility_entry item b]> d)
        d bins.

(** The outer loop, starting from the empty dictionary. *)
Definition compatibility (materials : list Material) (bins : list Bin)
    : gmap (string * string) Z :=
  foldl (compatibility_row bins) ∅ materials.

(** ** PuLP: variables, expressions, constraints, problems *)

Inductive LpCategory := LpContinuous | LpInteger | LpBinary.

(** A variable of [LpVariable.dicts(name, (rows, columns), cat)], known by
    its two indices. *)
Record LpVariable := {
  indices : string * string;
  cat : LpCategory
}.

(** A linear expression: the terms added up by [lpSum], each a variable with
    its coefficient. *)
Definition LpAffineExpression : Type := list (LpVariable * Z).

Definition lpSum (es : list LpAffineExpression) : LpAffineExpression :=
  concat es.

Inductive LpSense := LpConstraintLE | LpConstraintEQ | LpConstraintGE.

Record LpConstraint := {
  expr : LpAffineExpression;
  sense : LpSense;
  rhs : Z
}.

Inductive LpObjectiveSense := LpMinimize | LpMaximize.

Record LpProblem := {
  name : string;
  objective_sense : LpObjectiveSense;
  objective : LpAffineExpression;
  constraints : list LpConstraint
}.

(** What [solve] leaves behind: the status code (1 optimal, 0 not solved,
    -1 infeasible, -2 unbounded, -3 undefined) and [varValue] of every
    variable. *)
Record Solved := {
  status : Z;
  varValue : LpVariable → option Q
}.

(** [value(e)]: [None] as soon as a variable has no value, else the sum of
    value times coefficient, accumulated from the constant 0. *)
Fixpoint value_from (s : Q) (vv : LpVariable → option Q)
    (e : LpAffineExpression) : option Q :=
  match e with
  | [] => Some s
  | (v, c) :: e' =>
      match vv v with
      | None => None
      | Some q => value_from (s + q * inject_Z c)%Q vv e'
      end
  end.

Definition value (vv : LpVariable → option Q) (e : LpAffineExpression)
    : option Q :=
  value_from 0%Q vv e.

(** The variables an expression, a constraint, a problem mention. *)
Definition expr_variables (e : LpAffineExpression) : list LpVariable :=
  fst <$> e.

Definition variables (model : LpProblem) : list LpVariable :=
  expr_variables (objective model)
  ++ concat ((λ c, expr_variables (expr c)) <$> constraints model).

(** A value lies in the domain of a category. *)
Definition in_domain (c : LpCategory) (o : option Q) : bool :=
  match o with
  | None => false
  | Some q =>
      match c with
      | LpContinuous => true
      | LpInteger => Qeq_bool q (inject_Z (Qfloor q))
      | LpBinary => Qeq_bool q 0 || Qeq_bool q 1
      end
  end.

(** A constraint is met by the values. *)
Definition holds (vv : LpVariable → option Q) (c : LpConstraint) : bool :=
  match value vv (expr c) with
  | None => false
  | Some q =>
      match sense c with
      | LpConstraintLE => Qle_bool q (inject_Z (rhs c))
      | LpConstraintEQ => Qeq_bool q (inject_Z (rhs c))
      | LpConstraintGE => Qle_bool (inject_Z (rhs c)) q
      end
  end.

(** The values are a feasible point of the problem. *)
Definition feasible (model : LpProblem) (vv : LpVariable → option Q) : bool :=
  forallb (λ v, in_domain (cat v) (vv v)) (variables model)
  && forallb (holds vv) (constraints model).

(** ** Step 3: the model of the notebook *)

(** The variable stored at [x[i][b]], a binary variable for every pair of
    identifiers.  The loops of the cell draw [i] and [b] from the two
    identifier columns, for which the nested dictionary [x] has a key. *)
Definition x (i b : string) : LpVariable :=
  {| indices := (i, b); cat := LpBinary |}.

(** Reading [x[i][b]] for arbitrary labels: the nested dictionary has the
    keys of the two identifier columns, and [KeyError] names the first label
    it does not have. *)
Definition x_get (materials : list Material) (bins : list Bin) (i b : string)
    : PyResult LpVariable :=
  if bool_decide (i ∈ material <$> materials) then
    if bool_decide (b ∈ bin <$> bins) then Ok (x i b)
    else Raise (KeyError (Label b))
  else Raise (KeyError (Label i)).

(** The keys of the nested dictionary [x]. *)
Definition x_keys (materials : list Material) (bins : list Bin)
    : list (string * string) :=
  i ← material_col materials; b ← bin_col bins; [(i, b)].

(** One term of the objective, [x[i][b] * frequency * distance].  PuLP
    gives the empty expression for a product with 0; otherwise the
    coefficient is the int64 product of the two numbers. *)
Definition objective_term (materials : list Material) (bins : list Bin)
    (k : string * string) : PyResult LpAffineExpression :=
  item ← loc material materials k.1;
  b ← loc bin bins k.2;
  mret (if (frequency item =? 0) || (distance b =? 0) then []
        else [(x k.1 k.2, int64 (frequency item * distance b))]).

Definition objective_expr (materials : list Material) (bins : list Bin)
    : PyResult LpAffineExpression :=
  lpSum <$> mapM (objective_term materials bins) (x_keys materials bins).

(** [lpSum(x[i][b] for b in bins['bin']) == 1] *)
Definition coverage_constraint (bins : list Bin) (i : string) : LpConstraint :=
  {| expr := lpSum ((λ b, [(x i b, 1)]) <$> bin_col bins);
     sense := LpConstraintEQ;
     rhs := 1 |}.

(** One term of a capacity constraint, [x[i][b] * size]; empty for the
    size 0. *)
Definition capacity_term (materials : list Material) (b i : string)
    : PyResult LpAffineExpression :=
  item ← loc material materials i;
  mret (if size item =? 0 then [] else [(x i b, size item)]).

(** [lpSum(x[i][b] * size(i) for i in materials['material']) <= capacity(b)] *)
Definition capacity_constraint (materials : list Material) (bins : list Bin)
    (b : string) : PyResult LpConstraint :=
  terms ← mapM (capacity_term materials b) (material_col materials);
  row ← loc bin bins b;
  mret {| expr := lpSum terms; sense := LpConstraintLE; rhs := capacity row |}.

(** [x[i][b] <= compatibility[(i, b)]]: the variable is read first, then
    the dictionary; a missing key is a [KeyError]. *)
Definition compatibility_constraint (materials : list Material)
    (bins : list Bin) (compat : gmap (string * string) Z)
    (k : string * string) : PyResult LpConstraint :=
  v ← x_get materials bins k.1 k.2;
  match compat !! k with
  | Some c => Ok {| expr := [(v, 1)]; sense := LpConstraintLE; rhs := c |}
  | None => Raise (KeyError (Pair k.1 k.2))
  end.

(** The three loops that add constraints. *)
Definition coverage_constraints (materials : list Material) (bins : list Bin)
    : list LpConstraint :=
  coverage_constraint bins <$> material_col materials.

Definition capacity_constraints (materials : list Material) (bins : list Bin)
    : PyResult (list LpConstraint) :=
  mapM (capacity_constraint materials bins) (bin_col bins).

Definition compatibility_constraints (materials : list Material)
    (bins : list Bin) : PyResult (list LpConstraint) :=
  mapM (compatibility_constraint materials bins
          (compatibility materials bins))
       (x_keys materials bins).

(** The problem after the objective and every constraint were added with
    [model += ...]; constraints are kept in the order they were added. *)
Definition build_model (materials : list Material) (bins : list Bin)
    : PyResult LpProblem :=
  obj ← objective_expr materials bins;
  cap ← capacity_constraints materials bins;
  cmp ← compatibility_constraints materials bins;
  mret {| name := "BinAssignmentOptimization";
          objective_sense := LpMinimize;
          objective := obj;
          constraints := coverage_constraints materials bins ++ cap ++ cmp |}.

(** ** Solving and printing *)

(** The test [x[i][b].varValue == 1]. *)
Definition is_one (o : option Q) : bool :=
  match o with
  | Some q => Qeq_bool q 1
  | None => false
  end.

(** The pairs the printing loop reaches the [print] for, in order. *)
Definition assigned (vv : LpVariable → option Q) (materials : list Material)
    (bins : list Bin) : list (string * string) :=
  i ← material_col materials;
  b ← bin_col bins;
  if is_one (vv (x i b)) then [(i, b)] else [].

(** [f"{i} -> {b}"] *)
Definition line (k : string * string) : string :=
  k.1 +:+ " -> " +:+ k.2.

Definition report (vv : LpVariable → option Q) (materials : list Material)
    (bins : list Bin) : list string :=
  line <$> assigned vv materials bins.

(** What the cell prints: the lines under the heading
    "Assigned Material -> Bin" and the number after
    "Total Weighted Distance:". *)
Record Stdout := {
  assignment : list string;
  total_weighted_distance : option Q
}.

(** [value(model.objective)] after [model.solve()].  To an objective
    without terms PuLP's solve adds a variable of its own, [__dummy], which
    gets no value: [value] is then [None]. *)
Definition printed_total (vv : LpVariable → option Q)
    (obj : LpAffineExpression) : option Q :=
  match obj with
  | [] => None
  | _ :: _ => value vv obj
  end.

(** The whole cell, given the solver.  The call of the solver can raise;
    the status it returns is not read. *)
Definition cell (solve : LpProblem → PyResult Solved)
    (materials : list Material) (bins : list Bin) : PyResult Stdout :=
  model ← build_model materials bins;
  s ← solve model;
  mret {| assignment := report (varValue s) materials bins;
          total_weighted_distance :=
            printed_total (varValue s) (objective model) |}.

(** ** The stored output of the notebook *)

Module Stored.

(** The assignment lines of the output stored with the cell. *)
Definition lines : list string :=
  ["M1 -> B1"; "M2 -> B4"; "M3 -> B3"; "M4 -> B4"; "M5 -> B4";
   "M6 -> B3"; "M8 -> B4"; "M10 -> B1"].

Definition pairs : list (string * string) :=
  [("M1", "B1"); ("M2", "B4"); ("M3", "B3"); ("M4", "B4"); ("M5", "B4");
   ("M6", "B3"); ("M8", "B4"); ("M10", "B1")].

(** A stand-in for the values of the stored run, which the notebook does
    not store: 1 on the listed pairs, 0 on every other pair, with the status
    code for an infeasible problem.  It prints exactly the stored lines.
    It is not the stored run: the stored total, 34.000000029999995, shows
    that some variables were left with values other than 0 and 1. *)
Definition solved : Solved :=
  {| status := -1;
     varValue := λ v, if bool_decide (indices v ∈ pairs)
                      then Some 1%Q else Some 0%Q |}.

Definition solve (model : LpProblem) : PyResult Solved := Ok solved.

(** Values that reproduce the whole stored output, the eight lines and, up
    to rounding, the total: besides the eight pairs at 1, M7 is split
    between B1 (1/3) and B5 (2/3) and M9 between B1 (1/2) and B3 (1/2). *)
Definition fractions : list (string * string * Q) :=
  [("M7", "B1", 1 # 3); ("M7", "B5", 2 # 3);
   ("M9", "B1", 1 # 2); ("M9", "B3", 1 # 2)]%Q.

Definition relaxed : Solved :=
  {| status := -1;
     varValue := λ v,
       if bool_decide (indices v ∈ pairs) then Some 1%Q
       else match List.find (λ f, bool_decide (f.1 = indices v)) fractions with
            | Some f => Some f.2
            | None => Some 0%Q
            end |}.

End Stored.

(** ** Quantities the statements speak of *)

(** The 0/1 reading of a value that the printing loop takes. *)
Definition bit (vv : LpVariable → option Q) (v : LpVariable) : Z :=
  if is_one (vv v) then 1 else 0.

Definition sum_list_Z (l : list Z) : Z := foldr Z.add 0 l.

(** The sum of coefficient times 0/1 reading over the terms of an
    expression. *)
Definition bit_sum (vv : LpVariable → option Q) (e : LpAffineExpression) : Z :=
  sum_list_Z ((λ t, bit vv t.1 * t.2) <$> e).

Definition indicator (β : bool) : Z := if β then 1 else 0.

(** Total size of the materials printed with bin [b]. *)
Definition load (vv : LpVariable → option Q) (materials : list Material)
    (bins : list Bin) (b : string) : Z :=
  sum_list_Z
    (size <$> List.filter
                (λ item, bool_decide ((material item, b) ∈ assigned vv materials bins))
                materials).


(** The pairs of rows the nested loops visit, and the model written over
    rows instead of labels; [build_model] returns it when identifiers are
    unique (lemma [build_model_rows]). *)
Definition rows (materials : list Material) (bins : list Bin)
    : list (Material * Bin) :=
  item ← materials; b ← bins; [(item, b)].

Definition key (p : Material * Bin) : string * string :=
  (material p.1, bin p.2).

Definition objective_rows (materials : list Material) (bins : list Bin)
    : LpAffineExpression :=
  p ← rows materials bins;
  if (frequency p.1 =? 0) || (distance p.2 =? 0) then []
  else [(x (material p.1) (bin p.2), int64 (frequency p.1 * distance p.2))].

Definition coverage_row (bins : list Bin) (item : Material) : LpConstraint :=
  {| expr := (λ b, (x (material item) (bin b), 1)) <$> bins;
     sense := LpConstraintEQ;
     rhs := 1 |}.

Definition capacity_row (materials : list Material) (b : Bin) : LpConstraint :=
  {| expr := item ← materials;
             if size item =? 0 then []
             else [(x (material item) (bin b), size item)];
     sense := LpConstraintLE;
     rhs := capacity b |}.

Definition compatibility_pair (p : Material * Bin) : LpConstraint :=
  {| expr := [(x (material p.1) (bin p.2), 1)];
     sense := LpConstraintLE;
     rhs := compatibility_entry p.1 p.2 |}.

Definition model_rows (materials : list Material) (bins : list Bin)
    : LpProblem :=
  {| name := "BinAssignmentOptimization";
     objective_sense := LpMinimize;
     objective := objective_rows materials bins;
     constraints :=
       (coverage_row bins <$> materials)
       ++ (capacity_row materials <$> bins)
       ++ (compatibility_pair <$> rows materials bins) |}.

(** The 0/1 table of a catalog read off the values. *)
Definition bits (vv : LpVariable → option Q) (item : Material) (b : Bin) : Z :=
  bit vv (x (material item) (bin b)).

(** The three families of constraints, read on the 0/1 table. *)
Definition table_ok (vv : LpVariable → option Q) (materials : list Material)
    (bins : list Bin) : Prop :=
  (∀ item, item ∈ materials → sum_list_Z (bits vv item <$> bins) = 1)
  ∧ (∀ b, b ∈ bins →
          sum_list_Z ((λ item, bits vv item b * size item) <$> materials)
          ≤ capacity b)
  ∧ (∀ item b, item ∈ materials → b ∈ bins →
               bits vv item b ≤ compatibility_entry item b).

(** Checks on the printed pairs: every material is printed with exactly one
    bin; no bin is loaded beyond its capacity; every printed pair has the
    entry 1 in the compatibility dictionary. *)
Definition printed_bins (vv : LpVariable → option Q)
    (materials : list Material) (bins : list Bin) (i : string) : list string :=
  List.filter (λ b, bool_decide ((i, b) ∈ assigned vv materials bins))
              (bin_col bins).

Definition printed_once (vv : LpVariable → option Q)
    (materials : list Material) (bins : list Bin) : bool :=
  forallb (λ i, Nat.eqb (length (printed_bins vv materials bins i)) 1)
          (material_col materials).

Definition within_capacity (vv : LpVariable → option Q)
    (materials : list Material) (bins : list Bin) : bool :=
  forallb (λ b, Z.leb (load vv materials bins (bin b)) (capacity b)) bins.

Definition printed_compatible (vv : LpVariable → option Q)
    (materials : list Material) (bins : list Bin) : bool :=
  forallb (λ k, bool_decide (compatibility materials bins !! k = Some 1))
          (assigned vv materials bins).

(** Materials of a group, their total size, the bins compatible with at
    least one of them, and the total capacity of those bins. *)
Definition demand (group : Material → bool) (materials : list Material) : Z :=
  sum_list_Z (size <$> List.filter group materials).

Definition compatible_slots (group : Material → bool)
    (materials : list Material) (bins : list Bin) : list Bin :=
  List.filter
    (λ b, existsb (λ item, group item && Z.eqb (compatibility_entry item b) 1)
                  materials)
    bins.

Definition supply (group : Material → bool) (materials : list Material)
    (bins : list Bin) : Z :=
  sum_list_Z (capacity <$> compatible_slots group materials bins).

Definition has_tag (t : string) (item : Material) : bool :=
  String.eqb (tag item) t.

(** Every variable of the nested dictionary has value 0 or 1. *)
Definition binary_values (vv : LpVariable → option Q)
    (materials : list Material) (bins : list Bin) : bool :=
  forallb (λ k, in_domain LpBinary (vv (x k.1 k.2))) (x_keys materials bins).

(** ** The scenario of one fragile material and two bins *)

Module Scenario.

Definition materials : list Material :=
  [{| material := "M1"; frequency := 3; size := 5; tag := "fragile" |}].

Definition bins : list Bin :=
  [{| bin := "B1"; capacity := 15; distance := 1; type := "safe" |};
   {| bin := "B3"; capacity := 10; distance := 3; type := "special" |}].

(** M1 placed in B1. *)
Definition solved : Solved :=
  {| status := 1;
     varValue := λ v, if bool_decide (indices v = ("M1", "B1"))
                      then Some 1%Q else Some 0%Q |}.

End Scenario.

(** The total recomputed from the two frames: the sum of frequency times
    distance over the rows whose pair of identifiers is among [ks]. *)
Definition recomputed (materials : list Material) (bins : list Bin)
    (ks : list (string * string)) : Z :=
  sum_list_Z
    ((λ p, frequency p.1 * distance p.2)
       <$> List.filter (λ p, bool_decide (key p ∈ ks)) (rows materials bins)).

(** The products of a frequency and a distance add up, in absolute value,
    to at most 2^53: no int64 product wraps, and the floating-point sum of
    [value] is exact. *)
Definition products_exact (materials : list Material) (bins : list Bin)
    : bool :=
  sum_list_Z ((λ p, Z.abs (frequency p.1 * distance p.2))
                <$> rows materials bins)
  <=? 2 ^ 53.

(** No product of a frequency and a distance leaves the int64 range. *)
Definition products_fit (materials : list Material) (bins : list Bin) : bool :=
  forallb (λ p, (- 2 ^ 63 <=? frequency p.1 * distance p.2)
                && (frequency p.1 * distance p.2 <? 2 ^ 63))
          (rows materials bins).

(** ** One material larger than the only bin *)

Module Overfull.

Definition materials : list Material :=
  [{| material := "M1"; frequency := 1; size := 20; tag := "regular" |}].

Definition bins : list Bin :=
  [{| bin := "B1"; capacity := 10; distance := 1; type := "regular" |}].

(** The solver reports an infeasible problem and leaves the variable at 1. *)
Definition solved : Solved :=
  {| status := -1; varValue := λ _, Some 1%Q |}.

Definition solve (model : LpProblem) : PyResult Solved := Ok solved.

End Overfull.

(** ** One fragile material and only a special bin *)

Module Misplaced.

Definition materials : list Material :=
  [{| material := "M1"; frequency := 3; size := 5; tag := "fragile" |}].

Definition bins : list Bin :=
  [{| bin := "B3"; capacity := 10; distance := 3; type := "special" |}].

(** The solver reports an infeasible problem and leaves the variable at 1. *)
Definition solved : Solved :=
  {| status := -1; varValue := λ _, Some 1%Q |}.

Definition solve (model : LpProblem) : PyResult Solved := Ok solved.

End Misplaced.

(** ** A frequency and a distance whose product leaves the int64 range *)

Module Overflow.

Definition materials : list Material :=
  [{| material := "M1"; frequency := 2 ^ 32; size := 1; tag := "regular" |}].

Definition bins : list Bin :=
  [{| bin := "B1"; capacity := 10; distance := 2 ^ 32; type := "regular" |}].

(** The optimal, and only feasible, point: M1 in B1. *)
Definition solved : Solved :=
  {| status := 1; varValue := λ _, Some 1%Q |}.

Definition solve (model : LpProblem) : PyResult Solved := Ok solved.

End Overflow.

(** * Properties *)

(** ** Lookups and loops *)

Section Frames.
Context {Row : Type} (index : Row → string).

Lemma filter_label_absent (df : list Row) (i : string) :
  i ∉ index <$> df → List.filter (λ r, String.eqb (index r) i) df = [].
Proof.
  induction df as [|r0 df IH]; intros Hi; [done|].
  rewrite fmap_cons in Hi. apply not_elem_of_cons in Hi as [Hne Hi].
  cbn [List.filter]. destruct (String.eqb_spec (index r0) i) as [Heq|_].
  - by destruct Hne.
  - by apply IH.
Qed.

Lemma filter_label_unique (df : list Row) (r : Row) :
  NoDup (index <$> df) → r ∈ df →
  List.filter (λ r', String.eqb (index r') (index r)) df = [r].
Proof.
  induction df as [|r0 df IH]; intros Hnd Hin.
  - by apply elem_of_nil in Hin.
  - rewrite fmap_cons in Hnd. apply NoDup_cons in Hnd as [Hfresh Hnd].
    cbn [List.filter]. apply elem_of_cons in Hin as [->|Hin].
    + rewrite String.eqb_refl. f_equal. by apply filter_label_absent.
    + destruct (String.eqb_spec (index r0) (index r)) as [Heq|_].
      * exfalso. apply Hfresh. rewrite Heq. by apply list_elem_of_fmap_2.
      * by apply IH.
Qed.

Lemma loc_elem (df : list Row) (r : Row) :
  NoDup (index <$> df) → r ∈ df → loc index df (index r) = Ok r.
Proof.
  intros Hnd Hin. unfold loc. by rewrite filter_label_unique.
Qed.

Lemma loc_absent (df : list Row) (i : string) :
  i ∉ index <$> df → loc index df i = Raise (KeyError (Label i)).
Proof. intros Hi. unfold loc. by rewrite filter_label_absent. Qed.
End Frames.

(** ** The compatibility dictionary *)

Lemma compatibility_entry_range (item : Material) (b : Bin) :
  compatibility_entry item b = 0 ∨ compatibility_entry item b = 1.
Proof.
  unfold compatibility_entry.
  destruct (_ && _); [by left|]. destruct (_ && _); [by left|by right].
Qed.

Section Dictionary.
Implicit Types (d : gmap (string * string) Z) (k : string * string).

Lemma compatibility_row_skip bins d item k :
  k.1 ≠ material item ∨ k.2 ∉ bin_col bins →
  compatibility_row bins d item !! k = d !! k.
Proof.
  unfold compatibility_row. revert d.
  induction bins as [|b bins IH]; intros d Hk; [done|].
  simpl. rewrite IH.
  - apply lookup_insert_ne. intros <-. simpl in Hk.
    destruct Hk as [Hk|Hk]; [done|]. apply Hk. left.
  - destruct Hk as [Hk|Hk]; [by left|right].
    intros Hin. apply Hk. by right.
Qed.

Lemma compatibility_row_lookup bins d item b :
  NoDup (bin_col bins) → b ∈ bins →
  compatibility_row bins d item !! (material item, bin b)
  = Some (compatibility_entry item b).
Proof.
  revert d. induction bins as [|b0 bins IH]; intros d Hnd Hin.
  - by apply elem_of_nil in Hin.
  - unfold bin_col in Hnd. rewrite fmap_cons in Hnd.
    apply NoDup_cons in Hnd as [Hfresh Hnd].
    apply elem_of_cons in Hin as [->|Hin].
    + change (compatibility_row (b0 :: bins) d item)
        with (compatibility_row bins
                (<[(material item, bin b0) := compatibility_entry item b0]> d)
                item).
      rewrite compatibility_row_skip by (by right).
      apply lookup_insert_eq.
    + by apply IH.
Qed.

Lemma compatibility_row_keeps bins d item k :
  is_Some (d !! k) → is_Some (compatibility_row bins d item !! k).
Proof.
  unfold compatibility_row. revert d.
  induction bins as [|b bins IH]; intros d Hk; [done|].
  simpl. apply IH. apply lookup_insert_is_Some'. by right.
Qed.

Lemma compatibility_row_defines bins d item b :
  b ∈ bin_col bins →
  is_Some (compatibility_row bins d item !! (material item, b)).
Proof.
  revert d. induction bins as [|b0 bins IH]; intros d Hin.
  - by apply elem_of_nil in Hin.
  - unfold bin_col in Hin. rewrite fmap_cons in Hin.
    apply elem_of_cons in Hin as [->|Hin].
    + apply (compatibility_row_keeps bins). apply lookup_insert_is_Some'.
      by left.
    + by apply IH.
Qed.

Lemma compatibility_row_range bins d item :
  (∀ k c, d !! k = Some c → c = 0 ∨ c = 1) →
  ∀ k c, compatibility_row bins d item !! k = Some c → c = 0 ∨ c = 1.
Proof.
  unfold compatibility_row. revert d.
  induction bins as [|b bins IH]; intros d Hd; [done|].
  simpl. apply IH. intros k c.
  destruct (decide ((material item, bin b) = k)) as [<-|Hne].
  - rewrite lookup_insert_eq. intros [= <-].
    apply compatibility_entry_range.
  - rewrite lookup_insert_ne by done. apply Hd.
Qed.

Lemma compatibility_fold_skip materials bins d k :
  k.1 ∉ material_col materials →
  foldl (compatibility_row bins) d materials !! k = d !! k.
Proof.
  revert d. induction materials as [|item materials IH]; intros d Hk; [done|].
  simpl. rewrite IH.
  - apply compatibility_row_skip. left. intros Heq. apply Hk.
    rewrite Heq. left.
  - intros Hin. apply Hk. by right.
Qed.

Lemma compatibility_fold_keeps materials bins d k :
  is_Some (d !! k) → is_Some (foldl (compatibility_row bins) d materials !! k).
Proof.
  revert d. induction materials as [|item materials IH]; intros d Hk; [done|].
  simpl. by apply IH, compatibility_row_keeps.
Qed.

Lemma compatibility_fold_range materials bins d :
  (∀ k c, d !! k = Some c → c = 0 ∨ c = 1) →
  ∀ k c, foldl (compatibility_row bins) d materials !! k = Some c →
         c = 0 ∨ c = 1.
Proof.
  revert d. induction materials as [|item materials IH]; intros d Hd; [done|].
  simpl. by apply IH, compatibility_row_range.
Qed.
End Dictionary.

Lemma compatibility_lookup (materials : list Material) (bins : list Bin)
    (item : Material) (b : Bin) :
  unique_ids materials bins → item ∈ materials → b ∈ bins →
  compatibility materials bins !! (material item, bin b)
  = Some (compatibility_entry item b).
Proof.
  intros [Hm Hb] Hitem Hbin. unfold compatibility.
  generalize (∅ : gmap (string * string) Z) as d.
  induction materials as [|item0 materials IH]; intros d.
  - by apply elem_of_nil in Hitem.
  - unfold material_col in Hm. rewrite fmap_cons in Hm.
    apply NoDup_cons in Hm as [Hfresh Hm].
    apply elem_of_cons in Hitem as [->|Hitem]; simpl.
    + rewrite compatibility_fold_skip by done.
      by apply compatibility_row_lookup.
    + by apply IH.
Qed.

Lemma compatibility_range (materials : list Material) (bins : list Bin)
    (k : string * string) (c : Z) :
  compatibility materials bins !! k = Some c → c = 0 ∨ c = 1.
Proof.
  apply compatibility_fold_range. intros k' c'. by rewrite lookup_empty.
Qed.

Lemma elem_of_x_keys (materials : list Material) (bins : list Bin)
    (k : string * string) :
  k ∈ x_keys materials bins
  ↔ k.1 ∈ material_col materials ∧ k.2 ∈ bin_col bins.
Proof.
  unfold x_keys. rewrite list_elem_of_bind. split.
  - intros (i & Hk & Hi). apply list_elem_of_bind in Hk as (b & Hk & Hb).
    apply list_elem_of_singleton in Hk as ->. done.
  - intros [Hi Hb]. exists k.1. split; [|done].
    apply list_elem_of_bind. exists k.2. split; [|done].
    destruct k. by apply list_elem_of_singleton.
Qed.

Lemma compatibility_defined (materials : list Material) (bins : list Bin)
    (k : string * string) :
  k ∈ x_keys materials bins → is_Some (compatibility materials bins !! k).
Proof.
  rewrite elem_of_x_keys. intros [Hi Hb]. unfold compatibility.
  generalize (∅ : gmap (string * string) Z) as d.
  induction materials as [|item materials IH]; intros d.
  - by apply elem_of_nil in Hi.
  - unfold material_col in Hi. rewrite fmap_cons in Hi. simpl.
    apply elem_of_cons in Hi as [Hi|Hi].
    + apply compatibility_fold_keeps. destruct k as [i b]. simpl in *.
      subst i. by apply compatibility_row_defines.
    + by apply IH.
Qed.

Lemma compatibility_entry_one (item : Material) (b : Bin) :
  compatibility_entry item b = 1
  ↔ (tag item ≠ "fragile" ∨ type b = "safe")
    ∧ (tag item ≠ "hazardous" ∨ type b = "special").
Proof.
  unfold compatibility_entry.
  rewrite <- !String.eqb_neq, <- !String.eqb_eq.
  destruct (String.eqb (tag item) "fragile"),
           (String.eqb (type b) "safe"),
           (String.eqb (tag item) "hazardous"),
           (String.eqb (type b) "special"); simpl;
    intuition (discriminate || congruence).
Qed.

Lemma compatibility_entry_ext (item item' : Material) (b b' : Bin) :
  tag item = tag item' → type b = type b' →
  compatibility_entry item b = compatibility_entry item' b'.
Proof. unfold compatibility_entry. by intros -> ->. Qed.

Lemma unique_ids_data : unique_ids Data.materials Data.bins.
Proof. split; apply (bool_decide_unpack _); by vm_compute. Qed.

Ltac by_eval := apply (bool_decide_unpack _); vm_compute; exact I.
Ltac elem_of_eval :=
  vm_compute; repeat first [apply list_elem_of_here | apply list_elem_of_further].

(** C8: default allow.  In a catalog with unique identifiers, a material
    whose tag is neither 'fragile' nor 'hazardous' (in particular one tagged
    'regular') has the entry 1 in the compatibility dictionary, for every
    bin. *)
Theorem default_allow (materials : list Material) (bins : list Bin)
    (item : Material) (b : Bin) :
  unique_ids materials bins → item ∈ materials → b ∈ bins →
  (tag item ≠ "fragile" → tag item ≠ "hazardous" →
   compatibility materials bins !! (material item, bin b) = Some 1)
  ∧ (tag item = "regular" →
     compatibility materials bins !! (material item, bin b) = Some 1).
Proof.
  intros Hu Hitem Hbin.
  assert (tag item ≠ "fragile" → tag item ≠ "hazardous" →
          compatibility materials bins !! (material item, bin b) = Some 1)
    as Hgen.
  { intros Hf Hh. rewrite compatibility_lookup by done. f_equal.
    apply compatibility_entry_one. split; by left. }
  split; [done|]. intros Hr. apply Hgen; by rewrite Hr.
Qed.

Lemma default_allow_witness :
  compatibility Data.materials Data.bins !! ("M2", "B3") = Some 1.
Proof.
  apply (default_allow Data.materials Data.bins
           {| material := "M2"; frequency := 1; size := 4; tag := "regular" |}
           {| bin := "B3"; capacity := 10; distance := 3; type := "special" |}).
  - split; by_eval.
  - elem_of_eval.
  - elem_of_eval.
  - reflexivity.
Defined.

(** C9: the compatibility relation.  In a catalog with unique identifiers
    every pair has an entry, and the entry is 1 exactly when (the tag is not
    'fragile' or the bin type is 'safe') and (the tag is not 'hazardous' or
    the bin type is 'special'); so a fragile material is compatible with the
    'safe' bins only and a hazardous one with the 'special' bins only. *)
Theorem compatibility_characterized (materials : list Material)
    (bins : list Bin) (item : Material) (b : Bin) :
  unique_ids materials bins → item ∈ materials → b ∈ bins →
  ∃ c, compatibility materials bins !! (material item, bin b) = Some c
       ∧ (c = 1 ↔ (tag item ≠ "fragile" ∨ type b = "safe")
                  ∧ (tag item ≠ "hazardous" ∨ type b = "special"))
       ∧ (tag item = "fragile" → (c = 1 ↔ type b = "safe"))
       ∧ (tag item = "hazardous" → (c = 1 ↔ type b = "special")).
Proof.
  intros Hu Hitem Hbin. exists (compatibility_entry item b).
  split; [by apply compatibility_lookup|].
  split; [apply compatibility_entry_one|].
  rewrite compatibility_entry_one.
  split; intros Ht; rewrite Ht; intuition (discriminate || congruence).
Qed.

Lemma compatibility_characterized_witness :
  ∃ c, compatibility Data.materials Data.bins !! ("M3", "B3") = Some c
       ∧ (c = 1 ↔ ("hazardous" ≠ "fragile" ∨ "special" = "safe")
                  ∧ ("hazardous" ≠ "hazardous" ∨ "special" = "special"))
       ∧ ("hazardous" = "fragile" → (c = 1 ↔ "special" = "safe"))
       ∧ ("hazardous" = "hazardous" → (c = 1 ↔ "special" = "special")).
Proof.
  apply (compatibility_characterized Data.materials Data.bins
           {| material := "M3"; frequency := 2; size := 6; tag := "hazardous" |}
           {| bin := "B3"; capacity := 10; distance := 3; type := "special" |}).
  - split; by_eval.
  - elem_of_eval.
  - elem_of_eval.
Defined.

(** C10: the entry of a pair depends on the tag of the material and the type
    of the bin only, and the dictionary is total.  In catalogs with unique
    identifiers, two materials with the same tag have the same entry for
    every bin; more generally two pairs, even of different catalogs, with
    equal tags and equal bin types have equal entries; and each pair of a
    material and a bin of the catalog has an entry, which is 0 or 1. *)
Theorem compatibility_by_tag_and_type (materials : list Material)
    (bins : list Bin) :
  unique_ids materials bins →
  (∀ item item' b, item ∈ materials → item' ∈ materials → b ∈ bins →
     tag item = tag item' →
     compatibility materials bins !! (material item, bin b)
     = compatibility materials bins !! (material item', bin b))
  ∧ (∀ materials' bins' item b item' b',
       unique_ids materials' bins' →
       item ∈ materials → b ∈ bins → item' ∈ materials' → b' ∈ bins' →
       tag item = tag item' → type b = type b' →
       compatibility materials bins !! (material item, bin b)
       = compatibility materials' bins' !! (material item', bin b'))
  ∧ (∀ i b, i ∈ material_col materials → b ∈ bin_col bins →
       compatibility materials bins !! (i, b) = Some 0
       ∨ compatibility materials bins !! (i, b) = Some 1).
Proof.
  intros Hu. split_and!.
  - intros item item' b Hi Hi' Hb Ht.
    rewrite !compatibility_lookup by done. f_equal.
    by apply compatibility_entry_ext.
  - intros materials' bins' item b item' b' Hu' Hi Hb Hi' Hb' Ht Hty.
    rewrite !compatibility_lookup by done. f_equal.
    by apply compatibility_entry_ext.
  - intros i b Hi Hb.
    destruct (compatibility_defined materials bins (i, b)) as [c Hc].
    { by apply elem_of_x_keys. }
    rewrite Hc. destruct (compatibility_range _ _ _ _ Hc) as [->| ->]; auto.
Qed.

Lemma compatibility_by_tag_and_type_witness :
  compatibility Data.materials Data.bins !! ("M3", "B1")
  = compatibility Data.materials Data.bins !! ("M9", "B1").
Proof.
  apply (proj1 (compatibility_by_tag_and_type Data.materials Data.bins
                  ltac:(split; by_eval))
           {| material := "M3"; frequency := 2; size := 6; tag := "hazardous" |}
           {| material := "M9"; frequency := 1; size := 4; tag := "hazardous" |}
           {| bin := "B1"; capacity := 15; distance := 1; type := "safe" |}).
  - elem_of_eval.
  - elem_of_eval.
  - elem_of_eval.
  - reflexivity.
Defined.

(** ** Values of expressions under 0/1 values *)

Lemma sum_list_Z_cons (a : Z) (l : list Z) :
  sum_list_Z (a :: l) = a + sum_list_Z l.
Proof. reflexivity. Qed.

Lemma sum_list_Z_app (l1 l2 : list Z) :
  sum_list_Z (l1 ++ l2) = sum_list_Z l1 + sum_list_Z l2.
Proof. induction l1 as [|a l1 IH]; simpl; lia. Qed.

Lemma bit_range (vv : LpVariable → option Q) (v : LpVariable) :
  bit vv v = 0 ∨ bit vv v = 1.
Proof. unfold bit. destruct (is_one _); auto. Qed.

Lemma binary_value (vv : LpVariable → option Q) (v : LpVariable) :
  in_domain LpBinary (vv v) = true →
  ∃ q, vv v = Some q ∧ (q == inject_Z (bit vv v))%Q.
Proof.
  unfold in_domain, bit, is_one. destruct (vv v) as [q|]; [|done].
  intros Hq. exists q. split; [done|].
  destruct (Qeq_bool q 1) eqn:E1.
  - by apply Qeq_bool_iff in E1.
  - rewrite orb_false_r in Hq. by apply Qeq_bool_iff in Hq.
Qed.

Lemma value_from_binary (vv : LpVariable → option Q)
    (e : LpAffineExpression) (s : Q) :
  (∀ v, v ∈ expr_variables e → in_domain LpBinary (vv v) = true) →
  ∃ q, value_from s vv e = Some q ∧ (q == s + inject_Z (bit_sum vv e))%Q.
Proof.
  revert s. induction e as [|[v c] e IH]; intros s Hb.
  - exists s. split; [done|]. change (inject_Z (bit_sum vv [])) with 0%Q. lra.
  - destruct (binary_value vv v) as (q0 & Hv & Hq0).
    { apply Hb. left. }
    destruct (IH (s + q0 * inject_Z c)%Q) as (q & Hq & Heq).
    { intros v' Hv'. apply Hb. by right. }
    exists q. split; [simpl; by rewrite Hv|].
    rewrite Heq, Hq0. unfold bit_sum. simpl.
    rewrite inject_Z_plus, inject_Z_mult. symmetry. apply Qplus_assoc.
Qed.

Lemma value_binary (vv : LpVariable → option Q) (e : LpAffineExpression) :
  (∀ v, v ∈ expr_variables e → in_domain LpBinary (vv v) = true) →
  ∃ q, value vv e = Some q ∧ (q == inject_Z (bit_sum vv e))%Q.
Proof.
  intros Hb. destruct (value_from_binary vv e 0 Hb) as (q & Hq & Heq).
  exists q. split; [done|]. rewrite Heq. lra.
Qed.

Lemma holds_binary (vv : LpVariable → option Q) (c : LpConstraint) :
  (∀ v, v ∈ expr_variables (expr c) → in_domain LpBinary (vv v) = true) →
  holds vv c = true →
  match sense c with
  | LpConstraintLE => bit_sum vv (expr c) ≤ rhs c
  | LpConstraintEQ => bit_sum vv (expr c) = rhs c
  | LpConstraintGE => rhs c ≤ bit_sum vv (expr c)
  end.
Proof.
  intros Hb. unfold holds.
  destruct (value_binary vv (expr c) Hb) as (q & -> & Heq).
  destruct (sense c); intros H.
  - apply Qle_bool_iff in H. rewrite Heq in H. by rewrite Zle_Qle.
  - apply Qeq_bool_iff in H. rewrite Heq in H. by apply inject_Z_injective.
  - apply Qle_bool_iff in H. rewrite Heq in H. by rewrite Zle_Qle.
Qed.

(** ** Sums of 0/1 terms *)

Section Counting.
Context {A : Type}.
Implicit Types (f : A → bool) (w : A → Z) (l : list A).

Lemma sum_filter f w l :
  sum_list_Z (w <$> List.filter f l)
  = sum_list_Z ((λ a, indicator (f a) * w a) <$> l).
Proof.
  induction l as [|a l IH]; [done|].
  rewrite fmap_cons, sum_list_Z_cons, <- IH. cbn [List.filter].
  destruct (f a); unfold indicator.
  - rewrite fmap_cons, sum_list_Z_cons. lia.
  - lia.
Qed.

Lemma sum_ext (g h : A → Z) l :
  (∀ a, a ∈ l → g a = h a) →
  sum_list_Z (g <$> l) = sum_list_Z (h <$> l).
Proof.
  induction l as [|a l IH]; intros Hgh; [done|].
  rewrite !fmap_cons, !sum_list_Z_cons, (Hgh a) by left.
  rewrite IH; [done|]. intros a' Ha'. apply Hgh. by right.
Qed.

Lemma sum_le (g h : A → Z) l :
  (∀ a, a ∈ l → g a ≤ h a) →
  sum_list_Z (g <$> l) ≤ sum_list_Z (h <$> l).
Proof.
  induction l as [|a l IH]; intros Hgh; [done|].
  rewrite !fmap_cons, !sum_list_Z_cons.
  specialize (Hgh a (list_elem_of_here _ _)) as Ha.
  assert (sum_list_Z (g <$> l) ≤ sum_list_Z (h <$> l)).
  { apply IH. intros a' Ha'. apply Hgh. by right. }
  lia.
Qed.

Lemma sum_indicator_nonneg f l :
  0 ≤ sum_list_Z ((λ a, indicator (f a)) <$> l).
Proof.
  induction l as [|a l IH]; [done|].
  rewrite fmap_cons, sum_list_Z_cons. unfold indicator at 1.
  destruct (f a); lia.
Qed.

Lemma sum_indicator_zero f l :
  sum_list_Z ((λ a, indicator (f a)) <$> l) = 0 →
  ∀ a, a ∈ l → f a = false.
Proof.
  induction l as [|a0 l IH]; intros Hs a Ha.
  - by apply elem_of_nil in Ha.
  - rewrite fmap_cons, sum_list_Z_cons in Hs.
    pose proof (sum_indicator_nonneg f l) as Hn.
    unfold indicator at 1 in Hs.
    apply elem_of_cons in Ha as [->|Ha].
    + destruct (f a0); [lia|done].
    + apply IH; [|done]. destruct (f a0); lia.
Qed.

Lemma sum_indicator_one f l :
  sum_list_Z ((λ a, indicator (f a)) <$> l) = 1 →
  NoDup l →
  ∃ a, a ∈ l ∧ f a = true ∧ ∀ a', a' ∈ l → f a' = true → a' = a.
Proof.
  induction l as [|a0 l IH]; intros Hs Hnd; [done|].
  apply NoDup_cons in Hnd as [Hfresh Hnd].
  rewrite fmap_cons, sum_list_Z_cons in Hs.
  unfold indicator at 1 in Hs. destruct (f a0) eqn:E0.
  - exists a0. split_and!; [left|done|].
    intros a' Ha' Hf'. apply elem_of_cons in Ha' as [->|Ha']; [done|].
    assert (f a' = false) as Hz; [|congruence].
    apply (sum_indicator_zero f l); [lia|done].
  - destruct IH as (a & Ha & Hfa & Huniq); [lia|done|].
    exists a. split_and!; [by right|done|].
    intros a' Ha' Hf'. apply elem_of_cons in Ha' as [->|Ha'].
    + congruence.
    + by apply Huniq.
Qed.
End Counting.

(** ** The model over rows *)

Lemma bind_singleton_fmap {A B : Type} (g : A → B) (l : list A) :
  l ≫= (λ a, [g a]) = g <$> l.
Proof.
  induction l as [|a l IH]; [done|]. by rewrite bind_cons, fmap_cons, IH.
Qed.

Lemma concat_singleton_fmap {A B : Type} (g : A → B) (l : list A) :
  concat ((λ a, [g a]) <$> l) = g <$> l.
Proof.
  induction l as [|a l IH]; [done|]. rewrite !fmap_cons. simpl. by rewrite IH.
Qed.

Lemma elem_of_rows (materials : list Material) (bins : list Bin)
    (p : Material * Bin) :
  p ∈ rows materials bins ↔ p.1 ∈ materials ∧ p.2 ∈ bins.
Proof.
  unfold rows. rewrite list_elem_of_bind. split.
  - intros (item & Hp & Hitem). apply list_elem_of_bind in Hp as (b & Hp & Hb).
    apply list_elem_of_singleton in Hp as ->. done.
  - intros [Hitem Hb]. exists p.1. split; [|done].
    apply list_elem_of_bind. exists p.2. split; [|done].
    destruct p. by apply list_elem_of_singleton.
Qed.

Lemma x_keys_rows (materials : list Material) (bins : list Bin) :
  x_keys materials bins = key <$> rows materials bins.
Proof.
  unfold x_keys, rows, material_col, bin_col.
  induction materials as [|item materials IH]; [done|].
  rewrite fmap_cons, !bind_cons, fmap_app, IH. f_equal.
  rewrite (bind_singleton_fmap (λ b, (item, b))), <- list_fmap_compose.
  rewrite (bind_singleton_fmap (λ b, (material item, b))).
  by rewrite <- list_fmap_compose.
Qed.

Lemma mapM_fmap_Ok {A B C : Type} (f : B → PyResult C) (h : A → B)
    (g : A → C) (l : list A) :
  (∀ a, a ∈ l → f (h a) = Ok (g a)) → mapM f (h <$> l) = Ok (g <$> l).
Proof.
  induction l as [|a l IH]; intros Hf; [done|].
  rewrite !fmap_cons. cbn [mapM]. rewrite (Hf a) by left. simpl.
  rewrite IH; [done|]. intros a' Ha'. apply Hf. by right.
Qed.

Lemma concat_fmap_bind {A B : Type} (g : A → list B) (l : list A) :
  concat (g <$> l) = l ≫= g.
Proof.
  induction l as [|a l IH]; [done|].
  rewrite fmap_cons, bind_cons. simpl. by rewrite IH.
Qed.

Lemma x_get_pair (materials : list Material) (bins : list Bin)
    (item : Material) (b : Bin) :
  item ∈ materials → b ∈ bins →
  x_get materials bins (material item) (bin b) = Ok (x (material item) (bin b)).
Proof.
  intros Hi Hb. unfold x_get.
  rewrite !bool_decide_eq_true_2; [done| |]; by apply list_elem_of_fmap_2.
Qed.

Section Rows.
Variables (materials : list Material) (bins : list Bin).
Hypothesis unique : unique_ids materials bins.

Lemma objective_expr_rows :
  objective_expr materials bins = Ok (objective_rows materials bins).
Proof.
  unfold objective_expr, objective_rows. rewrite x_keys_rows.
  rewrite (mapM_fmap_Ok _ key
             (λ p, if (frequency p.1 =? 0) || (distance p.2 =? 0) then []
                   else [(x (material p.1) (bin p.2),
                          int64 (frequency p.1 * distance p.2))])).
  - simpl. unfold lpSum. by rewrite concat_fmap_bind.
  - intros p Hp. apply elem_of_rows in Hp as [Hi Hb].
    destruct unique as [Hm Hn]. unfold objective_term, key. simpl.
    rewrite (loc_elem material) by done. simpl.
    by rewrite (loc_elem bin) by done.
Qed.

Lemma capacity_constraints_rows :
  capacity_constraints materials bins = Ok (capacity_row materials <$> bins).
Proof.
  unfold capacity_constraints, bin_col. apply mapM_fmap_Ok.
  intros b Hb. destruct unique as [Hm Hn]. unfold capacity_constraint.
  unfold material_col.
  rewrite (mapM_fmap_Ok _ material
             (λ item, if size item =? 0 then []
                      else [(x (material item) (bin b), size item)])).
  - simpl. rewrite (loc_elem bin) by done. simpl.
    unfold capacity_row, lpSum. by rewrite concat_fmap_bind.
  - intros item Hi. unfold capacity_term.
    by rewrite (loc_elem material) by done.
Qed.

Lemma compatibility_constraints_rows :
  compatibility_constraints materials bins
  = Ok (compatibility_pair <$> rows materials bins).
Proof.
  unfold compatibility_constraints. rewrite x_keys_rows.
  apply mapM_fmap_Ok. intros p Hp. apply elem_of_rows in Hp as [Hi Hb].
  unfold compatibility_constraint, key. simpl.
  rewrite x_get_pair by done. simpl.
  by rewrite compatibility_lookup by done.
Qed.

Lemma coverage_constraints_rows :
  coverage_constraints materials bins = coverage_row bins <$> materials.
Proof.
  unfold coverage_constraints, material_col.
  rewrite <- list_fmap_compose. apply list_fmap_ext. intros _ item _.
  unfold coverage_constraint, coverage_row, bin_col, lpSum. simpl. f_equal.
  rewrite <- list_fmap_compose.
  apply (concat_singleton_fmap (λ b, (x (material item) (bin b), 1))).
Qed.

Lemma build_model_rows :
  build_model materials bins = Ok (model_rows materials bins).
Proof.
  unfold build_model.
  rewrite objective_expr_rows, capacity_constraints_rows,
    compatibility_constraints_rows, coverage_constraints_rows.
  reflexivity.
Qed.
End Rows.

Lemma elem_of_assigned (vv : LpVariable → option Q) (materials : list Material)
    (bins : list Bin) (k : string * string) :
  k ∈ assigned vv materials bins
  ↔ k ∈ x_keys materials bins ∧ is_one (vv (x k.1 k.2)) = true.
Proof.
  rewrite elem_of_x_keys. unfold assigned. rewrite list_elem_of_bind. split.
  - intros (i & Hk & Hi). apply list_elem_of_bind in Hk as (b & Hk & Hb).
    destruct (is_one (vv (x i b))) eqn:E.
    + apply list_elem_of_singleton in Hk as ->. done.
    + by apply elem_of_nil in Hk.
  - intros [[Hi Hb] Hone]. exists k.1. split; [|done].
    apply list_elem_of_bind. exists k.2. split; [|done].
    rewrite Hone. destruct k. by apply list_elem_of_singleton.
Qed.

Lemma elem_of_concat {A : Type} (a : A) (ls : list (list A)) :
  a ∈ concat ls ↔ ∃ l, l ∈ ls ∧ a ∈ l.
Proof.
  induction ls as [|l0 ls IH]; simpl.
  - split; [intros H; by apply elem_of_nil in H|].
    intros (l & Hl & _). by apply elem_of_nil in Hl.
  - rewrite elem_of_app, IH. split.
    + intros [H|(l & Hl & Ha)]; [exists l0|exists l]; split; try done;
        [left|by right].
    + intros (l & Hl & Ha). apply elem_of_cons in Hl as [->|Hl]; [by left|].
      right. by exists l.
Qed.

Lemma elem_of_objective_rows (materials : list Material) (bins : list Bin)
    (t : LpVariable * Z) :
  t ∈ objective_rows materials bins →
  ∃ p, p ∈ rows materials bins
       ∧ t = (x (material p.1) (bin p.2), int64 (frequency p.1 * distance p.2)).
Proof.
  unfold objective_rows. intros Ht.
  apply list_elem_of_bind in Ht as (p & Ht & Hp). exists p. split; [done|].
  destruct (_ || _); [by apply elem_of_nil in Ht|].
  by apply list_elem_of_singleton in Ht.
Qed.

Lemma elem_of_capacity_row (materials : list Material) (b : Bin)
    (t : LpVariable * Z) :
  t ∈ expr (capacity_row materials b) →
  ∃ item, item ∈ materials ∧ t = (x (material item) (bin b), size item).
Proof.
  simpl. intros Ht.
  apply list_elem_of_bind in Ht as (item & Ht & Hi). exists item.
  split; [done|]. destruct (size item =? 0); [by apply elem_of_nil in Ht|].
  by apply list_elem_of_singleton in Ht.
Qed.

Lemma variables_model_rows (materials : list Material) (bins : list Bin)
    (v : LpVariable) :
  v ∈ variables (model_rows materials bins)
  ↔ ∃ p, p ∈ rows materials bins ∧ v = x (material p.1) (bin p.2).
Proof.
  unfold variables, expr_variables.
  rewrite elem_of_app, elem_of_concat. split.
  - intros [Hv|(l & Hl & Hv)].
    + apply list_elem_of_fmap in Hv as (t & -> & Ht).
      apply elem_of_objective_rows in Ht as (p & Hp & ->). by exists p.
    + apply list_elem_of_fmap in Hl as (c & -> & Hc).
      apply list_elem_of_fmap in Hv as (t & -> & Ht).
      simpl in Hc. rewrite !elem_of_app in Hc. destruct Hc as [Hc|[Hc|Hc]];
        apply list_elem_of_fmap in Hc as (r & -> & Hr).
      * simpl in Ht. apply list_elem_of_fmap in Ht as (b & -> & Hb).
        exists (r, b). split; [by apply elem_of_rows|done].
      * apply elem_of_capacity_row in Ht as (item & Hi & ->).
        exists (item, r). split; [by apply elem_of_rows|done].
      * simpl in Ht. apply list_elem_of_singleton in Ht as ->. by exists r.
  - intros (p & Hp & ->). right.
    exists (expr_variables (expr (compatibility_pair p))). split.
    + apply (list_elem_of_fmap_2 (λ c, expr_variables (expr c))).
      simpl. rewrite !elem_of_app. right. right.
      by apply list_elem_of_fmap_2.
    + simpl. left.
Qed.

(** C3 (as the code has it): the model has a decision variable for every
    pair of a material and a bin, compatible or not, and no other variable;
    and for every pair it has the explicit constraint
    [x[i][b] <= compatibility[(i, b)]], whose right-hand side is 0 for an
    incompatible pair. *)
Theorem variables_and_constraints_for_all_pairs (materials : list Material)
    (bins : list Bin) :
  unique_ids materials bins →
  ∃ model, build_model materials bins = Ok model
    ∧ (∀ v, v ∈ variables model
            ↔ ∃ k, k ∈ x_keys materials bins ∧ v = x k.1 k.2)
    ∧ (∀ item b, item ∈ materials → b ∈ bins →
         compatibility materials bins !! (material item, bin b)
         = Some (compatibility_entry item b)
         ∧ {| expr := [(x (material item) (bin b), 1)];
              sense := LpConstraintLE;
              rhs := compatibility_entry item b |} ∈ constraints model).
Proof.
  intros Hu. exists (model_rows materials bins).
  split; [by apply build_model_rows|]. split.
  - intros v. rewrite variables_model_rows, x_keys_rows. split.
    + intros (p & Hp & ->). exists (key p). split; [|done].
      by apply list_elem_of_fmap_2.
    + intros (k & Hk & ->). apply list_elem_of_fmap in Hk as (p & -> & Hp).
      by exists p.
  - intros item b Hi Hb. split; [by apply compatibility_lookup|].
    simpl. rewrite !elem_of_app. right. right.
    apply list_elem_of_fmap. exists (item, b).
    split; [done|]. by apply elem_of_rows.
Qed.

Lemma variables_and_constraints_for_all_pairs_witness :
  ∃ model, build_model Scenario.materials Scenario.bins = Ok model
    ∧ (∀ v, v ∈ variables model
            ↔ ∃ k, k ∈ x_keys Scenario.materials Scenario.bins
                   ∧ v = x k.1 k.2)
    ∧ (∀ item b, item ∈ Scenario.materials → b ∈ Scenario.bins →
         compatibility Scenario.materials Scenario.bins
           !! (material item, bin b)
         = Some (compatibility_entry item b)
         ∧ {| expr := [(x (material item) (bin b), 1)];
              sense := LpConstraintLE;
              rhs := compatibility_entry item b |} ∈ constraints model).
Proof.
  apply (variables_and_constraints_for_all_pairs
           Scenario.materials Scenario.bins).
  split; by_eval.
Defined.

(** C3, counterexample: in the model of the notebook's data the pair of the
    fragile M1 and the regular bin B2 is incompatible (entry 0), yet its
    variable is in the model, and so is the constraint that bounds it by 0. *)
Lemma incompatible_pair_is_represented :
  compatibility Data.materials Data.bins !! ("M1", "B2") = Some 0
  ∧ ∃ model, build_model Data.materials Data.bins = Ok model
      ∧ x "M1" "B2" ∈ variables model
      ∧ {| expr := [(x "M1" "B2", 1)]; sense := LpConstraintLE; rhs := 0 |}
        ∈ constraints model.
Proof.
  split; [by vm_compute|].
  eexists. split; [vm_compute; reflexivity|]. split; elem_of_eval.
Qed.

(** C7, counterexample: with values that print the stored assignment lines,
    M7 is a material of the catalog, the report is those eight lines, and
    none of them starts with "M7 " or is a marker for M7. *)
Lemma report_omits_M7 :
  "M7" ∈ material_col Data.materials
  ∧ report (varValue Stored.solved) Data.materials Data.bins
    = ["M1 -> B1"; "M2 -> B4"; "M3 -> B3"; "M4 -> B4"; "M5 -> B4";
       "M6 -> B3"; "M8 -> B4"; "M10 -> B1"]
  ∧ forallb (λ l, negb (String.prefix "M7" l))
            (report (varValue Stored.solved) Data.materials Data.bins) = true.
Proof. split; [elem_of_eval|]. split; by vm_compute. Qed.

(** ** What values that meet the constraints look like *)

Lemma forallb_elem_of {A : Type} (f : A → bool) (l : list A) :
  forallb f l = true ↔ ∀ a, a ∈ l → f a = true.
Proof.
  rewrite forallb_forall. split; intros H a Ha; apply H; by apply list_elem_of_In.
Qed.

Lemma elem_of_x_keys_pair (materials : list Material) (bins : list Bin)
    (item : Material) (b : Bin) :
  item ∈ materials → b ∈ bins → (material item, bin b) ∈ x_keys materials bins.
Proof.
  intros Hi Hb. apply elem_of_x_keys. simpl. unfold material_col, bin_col.
  split; by apply list_elem_of_fmap_2.
Qed.

Lemma binary_values_pair (vv : LpVariable → option Q)
    (materials : list Material) (bins : list Bin) (item : Material) (b : Bin) :
  binary_values vv materials bins = true → item ∈ materials → b ∈ bins →
  in_domain LpBinary (vv (x (material item) (bin b))) = true.
Proof.
  unfold binary_values. rewrite forallb_elem_of. intros Hall Hi Hb.
  specialize (Hall (material item, bin b)). simpl in Hall. apply Hall.
  by apply elem_of_x_keys_pair.
Qed.

Lemma assigned_pair (vv : LpVariable → option Q) (materials : list Material)
    (bins : list Bin) (item : Material) (b : Bin) :
  item ∈ materials → b ∈ bins →
  bool_decide ((material item, bin b) ∈ assigned vv materials bins)
  = is_one (vv (x (material item) (bin b))).
Proof.
  intros Hi Hb. destruct (is_one _) eqn:E.
  - apply bool_decide_eq_true. apply elem_of_assigned. split; [|done].
    by apply elem_of_x_keys_pair.
  - apply bool_decide_eq_false. intros H.
    apply elem_of_assigned in H as [_ H]. simpl in H. congruence.
Qed.

Lemma coverage_constraint_row (bins : list Bin) (item : Material) :
  coverage_constraint bins (material item) = coverage_row bins item.
Proof.
  unfold coverage_constraint, coverage_row, bin_col, lpSum. f_equal.
  rewrite <- list_fmap_compose.
  apply (concat_singleton_fmap (λ b, (x (material item) (bin b), 1))).
Qed.

Lemma bit_sum_coverage_row (vv : LpVariable → option Q) (bins : list Bin)
    (item : Material) :
  bit_sum vv (expr (coverage_row bins item))
  = sum_list_Z
      ((λ b, indicator (is_one (vv (x (material item) (bin b))))) <$> bins).
Proof.
  unfold bit_sum. simpl. rewrite <- list_fmap_compose.
  apply sum_ext. intros b _. simpl. unfold bit, indicator.
  destruct (is_one _); lia.
Qed.

(** Coverage at values that meet the constraints: when the values are 0 or 1
    and meet the coverage constraints of the model, as at every feasible
    point, the variables of each material add up to 1 and the material is
    printed with exactly one bin. *)
Theorem coverage_when_constraints_hold (materials : list Material)
    (bins : list Bin) (vv : LpVariable → option Q) :
  unique_ids materials bins →
  binary_values vv materials bins = true →
  forallb (holds vv) (coverage_constraints materials bins) = true →
  ∀ item, item ∈ materials →
    (∃ q, value vv (expr (coverage_constraint bins (material item))) = Some q
          ∧ (q == 1)%Q)
    ∧ ∃ b, b ∈ bins
        ∧ (material item, bin b) ∈ assigned vv materials bins
        ∧ line (material item, bin b) ∈ report vv materials bins
        ∧ ∀ b', b' ∈ bins →
                (material item, bin b') ∈ assigned vv materials bins → b' = b.
Proof.
  intros Hu Hbin Hholds item Hi.
  assert (∀ v, v ∈ expr_variables (expr (coverage_row bins item)) →
               in_domain LpBinary (vv v) = true) as Hdom.
  { intros v Hv. unfold expr_variables in Hv. simpl in Hv.
    rewrite <- list_fmap_compose in Hv.
    apply list_elem_of_fmap in Hv as (b & -> & Hb).
    by apply (binary_values_pair vv materials bins). }
  rewrite forallb_elem_of in Hholds.
  assert (holds vv (coverage_row bins item) = true) as Hrow.
  { apply Hholds. rewrite coverage_constraints_rows.
    by apply list_elem_of_fmap_2. }
  pose proof (holds_binary vv _ Hdom Hrow) as Hsum.
  change (bit_sum vv (expr (coverage_row bins item)) = 1) in Hsum.
  split.
  - rewrite coverage_constraint_row.
    destruct (value_binary vv _ Hdom) as (q & Hq & Heq).
    exists q. split; [done|]. by rewrite Heq, Hsum.
  - rewrite bit_sum_coverage_row in Hsum.
    destruct Hu as [_ Hnd]. apply NoDup_fmap_1 in Hnd.
    destruct (sum_indicator_one _ bins Hsum Hnd) as (b & Hb & Hone & Huniq).
    assert ((material item, bin b) ∈ assigned vv materials bins) as Hk.
    { apply elem_of_assigned. split; [by apply elem_of_x_keys_pair|done]. }
    exists b. split_and!; [done|done| |].
    + unfold report. by apply (list_elem_of_fmap_2 line).
    + intros b' Hb' Hk'. apply Huniq; [done|].
      by apply elem_of_assigned in Hk' as [_ Hk'].
Qed.

Lemma coverage_when_constraints_hold_witness :
  (∃ q, value (varValue Scenario.solved)
              (expr (coverage_constraint Scenario.bins "M1")) = Some q
        ∧ (q == 1)%Q)
  ∧ ∃ b, b ∈ Scenario.bins
      ∧ ("M1", bin b)
        ∈ assigned (varValue Scenario.solved) Scenario.materials Scenario.bins
      ∧ line ("M1", bin b)
        ∈ report (varValue Scenario.solved) Scenario.materials Scenario.bins
      ∧ ∀ b', b' ∈ Scenario.bins →
              ("M1", bin b')
              ∈ assigned (varValue Scenario.solved)
                  Scenario.materials Scenario.bins →
              b' = b.
Proof.
  apply (coverage_when_constraints_hold Scenario.materials Scenario.bins
           (varValue Scenario.solved)
           ltac:(split; by_eval) ltac:(vm_compute; reflexivity)
           ltac:(vm_compute; reflexivity)
           {| material := "M1"; frequency := 3; size := 5; tag := "fragile" |}).
  elem_of_eval.
Defined.

(** ** The objective and the printed pairs *)

Lemma filter_fmap {A B : Type} (f : B → bool) (g : A → B) (l : list A) :
  List.filter f (g <$> l) = g <$> List.filter (λ a, f (g a)) l.
Proof.
  induction l as [|a l IH]; [done|].
  rewrite fmap_cons. cbn [List.filter]. rewrite IH. by destruct (f (g a)).
Qed.

Lemma assigned_inner (vv : LpVariable → option Q) (bins : list Bin)
    (item : Material) :
  (bin_col bins ≫= λ b, if is_one (vv (x (material item) b))
                        then [(material item, b)] else [])
  = key <$> List.filter (λ p, is_one (vv (x (material p.1) (bin p.2))))
                        ((λ b, (item, b)) <$> bins).
Proof.
  unfold bin_col. induction bins as [|b bins IH]; [done|].
  rewrite !fmap_cons, bind_cons, IH. cbn [List.filter]. simpl.
  by destruct (is_one _).
Qed.

Lemma assigned_rows (vv : LpVariable → option Q) (materials : list Material)
    (bins : list Bin) :
  assigned vv materials bins
  = key <$> List.filter (λ p, is_one (vv (x (material p.1) (bin p.2))))
                        (rows materials bins).
Proof.
  unfold assigned, rows, material_col.
  induction materials as [|item materials IH]; [done|].
  rewrite fmap_cons, !bind_cons, List.filter_app, fmap_app, IH. f_equal.
  rewrite assigned_inner. by rewrite (bind_singleton_fmap (λ b, (item, b))).
Qed.

Lemma int64_fit (z : Z) : - 2 ^ 63 ≤ z < 2 ^ 63 → int64 z = z.
Proof. intros Hz. unfold int64. rewrite Z.mod_small; lia. Qed.

Lemma bit_sum_app (vv : LpVariable → option Q) (e1 e2 : LpAffineExpression) :
  bit_sum vv (e1 ++ e2)%list = bit_sum vv e1 + bit_sum vv e2.
Proof. unfold bit_sum. by rewrite fmap_app, sum_list_Z_app. Qed.

Lemma bit_sum_bind {A : Type} (vv : LpVariable → option Q)
    (g : A → LpAffineExpression) (l : list A) :
  bit_sum vv (l ≫= g) = sum_list_Z ((λ a, bit_sum vv (g a)) <$> l).
Proof.
  induction l as [|a l IH]; [done|].
  by rewrite bind_cons, bit_sum_app, fmap_cons, sum_list_Z_cons, IH.
Qed.

Lemma products_fit_row (materials : list Material) (bins : list Bin)
    (p : Material * Bin) :
  products_fit materials bins = true → p ∈ rows materials bins →
  - 2 ^ 63 ≤ frequency p.1 * distance p.2 < 2 ^ 63.
Proof.
  unfold products_fit. rewrite forallb_elem_of. intros Hall Hp.
  specialize (Hall p Hp). apply andb_true_iff in Hall as [H1 H2].
  apply Z.leb_le in H1. apply Z.ltb_lt in H2. lia.
Qed.

Lemma products_exact_fit (materials : list Material) (bins : list Bin) :
  products_exact materials bins = true → products_fit materials bins = true.
Proof.
  unfold products_exact, products_fit. intros Hsum. apply Z.leb_le in Hsum.
  apply forallb_elem_of. intros p Hp.
  assert (Z.abs (frequency p.1 * distance p.2) ≤ 2 ^ 53) as Hp53.
  { etransitivity; [|exact Hsum]. clear Hsum.
    induction (rows materials bins) as [|p0 l IH];
      [by apply elem_of_nil in Hp|].
    rewrite fmap_cons, sum_list_Z_cons.
    assert (0 ≤ sum_list_Z ((λ p, Z.abs (frequency p.1 * distance p.2))
                              <$> l)) as Hnn.
    { clear. induction l as [|q l IH]; [done|].
      rewrite fmap_cons, sum_list_Z_cons. lia. }
    apply elem_of_cons in Hp as [->|Hp]; [lia|].
    specialize (IH Hp). lia. }
  apply andb_true_iff. split; [apply Z.leb_le|apply Z.ltb_lt]; lia.
Qed.

Lemma bit_sum_objective_rows (vv : LpVariable → option Q)
    (materials : list Material) (bins : list Bin) :
  products_fit materials bins = true →
  bit_sum vv (objective_rows materials bins)
  = sum_list_Z
      ((λ p, bit vv (x (material p.1) (bin p.2))
             * (frequency p.1 * distance p.2))
         <$> rows materials bins).
Proof.
  intros Hfit. unfold objective_rows. rewrite bit_sum_bind.
  apply sum_ext. intros p Hp.
  destruct (frequency p.1 =? 0) eqn:Ef; [apply Z.eqb_eq in Ef|];
    [|destruct (distance p.2 =? 0) eqn:Ed; [apply Z.eqb_eq in Ed|]]; simpl.
  - rewrite Ef. unfold bit_sum, sum_list_Z. simpl. lia.
  - rewrite Ed. unfold bit_sum, sum_list_Z. simpl. lia.
  - rewrite int64_fit by (by apply (products_fit_row materials bins)).
    unfold bit_sum, sum_list_Z. simpl. lia.
Qed.

Lemma recomputed_assigned (vv : LpVariable → option Q)
    (materials : list Material) (bins : list Bin) :
  recomputed materials bins (assigned vv materials bins)
  = sum_list_Z
      ((λ p, bit vv (x (material p.1) (bin p.2))
             * (frequency p.1 * distance p.2))
         <$> rows materials bins).
Proof.
  unfold recomputed. rewrite sum_filter. apply sum_ext. intros p Hp.
  apply elem_of_rows in Hp as [Hi Hb]. unfold key.
  by rewrite assigned_pair by done.
Qed.

Lemma feasible_binary_values (materials : list Material) (bins : list Bin)
    (vv : LpVariable → option Q) :
  feasible (model_rows materials bins) vv = true →
  binary_values vv materials bins = true.
Proof.
  unfold feasible, binary_values. rewrite andb_true_iff, !forallb_elem_of.
  intros [Hdom _] k Hk. rewrite x_keys_rows in Hk.
  apply list_elem_of_fmap in Hk as (p & -> & Hp).
  apply (Hdom (x (material p.1) (bin p.2))), variables_model_rows.
  by exists p.
Qed.

Lemma objective_rows_binary (materials : list Material) (bins : list Bin)
    (vv : LpVariable → option Q) :
  binary_values vv materials bins = true →
  ∀ v, v ∈ expr_variables (objective_rows materials bins) →
       in_domain LpBinary (vv v) = true.
Proof.
  intros Hbin v Hv. unfold expr_variables in Hv.
  apply list_elem_of_fmap in Hv as (t & -> & Ht).
  apply elem_of_objective_rows in Ht as (p & Hp & ->).
  apply elem_of_rows in Hp as [Hi Hb].
  by apply (binary_values_pair vv materials bins).
Qed.

(** The total of 0/1 values, for an objective that has a term and whose
    products fit: shared by the statements on the printed total. *)
Lemma total_of_bits (materials : list Material) (bins : list Bin)
    (vv : LpVariable → option Q) :
  products_fit materials bins = true →
  objective_rows materials bins ≠ [] →
  binary_values vv materials bins = true →
  ∃ q, printed_total vv (objective_rows materials bins) = Some q
       ∧ (q == inject_Z (recomputed materials bins
                           (assigned vv materials bins)))%Q.
Proof.
  intros Hfit Hne Hbin.
  destruct (value_binary vv _ (objective_rows_binary _ _ _ Hbin))
    as (q & Hq & Heq).
  exists q. split.
  - unfold printed_total. by destruct (objective_rows materials bins).
  - by rewrite Heq, recomputed_assigned, bit_sum_objective_rows.
Qed.

(** C2 (as the code has it): for a feasible point of a model whose objective
    has a term and whose products frequency times distance add up, in
    absolute value, to at most 2^53 (no int64 product wraps, the float sum
    is exact), when the solver call returns that point the cell prints the
    report of its pairs of value 1 and a total equal to the sum, recomputed
    from the two frames, of frequency times distance over the printed pairs
    (so the two agree within 1e-6).  The cell itself recomputes nothing and
    has no ConsistencyError. *)
Theorem total_matches_printed_pairs (solve : LpProblem → PyResult Solved)
    (materials : list Material) (bins : list Bin) (model : LpProblem)
    (s : Solved) :
  unique_ids materials bins →
  products_exact materials bins = true →
  build_model materials bins = Ok model →
  objective model ≠ [] →
  solve model = Ok s →
  feasible model (varValue s) = true →
  ∃ out q,
    cell solve materials bins = Ok out
    ∧ assignment out = report (varValue s) materials bins
    ∧ total_weighted_distance out = Some q
    ∧ (q == inject_Z (recomputed materials bins
                        (assigned (varValue s) materials bins)))%Q
    ∧ (Qabs (q - inject_Z (recomputed materials bins
                             (assigned (varValue s) materials bins)))
       <= 1 # 1000000)%Q.
Proof.
  intros Hu Hfit Hmodel Hne Hsolve Hfeas. apply products_exact_fit in Hfit.
  rewrite build_model_rows in Hmodel by done. injection Hmodel as <-.
  pose proof (feasible_binary_values _ _ _ Hfeas) as Hbin.
  destruct (total_of_bits materials bins (varValue s) Hfit Hne Hbin)
    as (q & Hq & Heq).
  exists {| assignment := report (varValue s) materials bins;
            total_weighted_distance := Some q |}, q.
  split_and!; [|done|done|done|].
  - unfold cell. rewrite build_model_rows by done. simpl.
    rewrite Hsolve. simpl. by rewrite Hq.
  - assert (q - inject_Z (recomputed materials bins
                            (assigned (varValue s) materials bins)) == 0)%Q
      as -> by (rewrite Heq; ring).
    unfold Qle. simpl. lia.
Qed.

Lemma total_matches_printed_pairs_witness :
  ∃ out q,
    cell (λ _, Ok Scenario.solved) Scenario.materials Scenario.bins = Ok out
    ∧ assignment out
      = report (varValue Scenario.solved) Scenario.materials Scenario.bins
    ∧ total_weighted_distance out = Some q
    ∧ (q == inject_Z (recomputed Scenario.materials Scenario.bins
                        (assigned (varValue Scenario.solved)
                           Scenario.materials Scenario.bins)))%Q
    ∧ (Qabs (q - inject_Z (recomputed Scenario.materials Scenario.bins
                             (assigned (varValue Scenario.solved)
                                Scenario.materials Scenario.bins)))
       <= 1 # 1000000)%Q.
Proof.
  apply (total_matches_printed_pairs (λ _, Ok Scenario.solved)
           Scenario.materials Scenario.bins
           (model_rows Scenario.materials Scenario.bins) Scenario.solved).
  - split; by_eval.
  - vm_compute. reflexivity.
  - vm_compute. reflexivity.
  - vm_compute. discriminate.
  - reflexivity.
  - vm_compute. reflexivity.
Defined.

(** C2, counterexample: two feasible models on which the printed total is
    not the sum of frequency times distance over the assigned pairs, and no
    error is raised.  With frequency 2^32 and distance 2^32 the coefficient
    wraps to 0: at the feasible point M1 in B1 the cell prints the total 0,
    the sum is 2^64.  With no material at all the model is feasible, the
    sum is 0 and the cell prints no number. *)
Lemma printed_total_differs :
  (∃ model, build_model Overflow.materials Overflow.bins = Ok model
      ∧ feasible model (varValue Overflow.solved) = true)
  ∧ cell Overflow.solve Overflow.materials Overflow.bins
    = Ok {| assignment := ["M1 -> B1"];
            total_weighted_distance := Some 0%Q |}
  ∧ recomputed Overflow.materials Overflow.bins
      (assigned (varValue Overflow.solved) Overflow.materials Overflow.bins)
    = 2 ^ 64
  ∧ (∃ model, build_model [] Data.bins = Ok model
       ∧ feasible model (varValue Stored.solved) = true)
  ∧ cell Stored.solve [] Data.bins
    = Ok {| assignment := []; total_weighted_distance := None |}
  ∧ recomputed [] Data.bins (assigned (varValue Stored.solved) [] Data.bins)
    = 0.
Proof.
  split; [eexists; split; vm_compute; reflexivity|].
  split; [vm_compute; reflexivity|]. split; [vm_compute; reflexivity|].
  split; [eexists; split; vm_compute; reflexivity|].
  split; vm_compute; reflexivity.
Qed.

(** ** Demand against supply *)

Lemma sum_zero {A : Type} (l : list A) :
  sum_list_Z ((λ _, 0) <$> l) = 0.
Proof.
  induction l as [|a l IH]; [done|]. by rewrite fmap_cons, sum_list_Z_cons, IH.
Qed.

Lemma sum_add {A : Type} (g h : A → Z) (l : list A) :
  sum_list_Z ((λ a, g a + h a) <$> l)
  = sum_list_Z (g <$> l) + sum_list_Z (h <$> l).
Proof.
  induction l as [|a l IH]; [done|].
  rewrite !fmap_cons, !sum_list_Z_cons, IH. lia.
Qed.

Lemma sum_scale {A : Type} (c : Z) (g : A → Z) (l : list A) :
  sum_list_Z ((λ a, c * g a) <$> l) = c * sum_list_Z (g <$> l).
Proof.
  induction l as [|a l IH]; [simpl; lia|].
  rewrite !fmap_cons, !sum_list_Z_cons, IH. lia.
Qed.

Lemma sum_swap {A B : Type} (F : A → B → Z) (l1 : list A) (l2 : list B) :
  sum_list_Z ((λ a, sum_list_Z ((λ b, F a b) <$> l2)) <$> l1)
  = sum_list_Z ((λ b, sum_list_Z ((λ a, F a b) <$> l1)) <$> l2).
Proof.
  induction l1 as [|a l1 IH].
  - simpl. symmetry. apply (sum_zero l2).
  - rewrite fmap_cons, sum_list_Z_cons, IH.
    rewrite <- (sum_add (λ b, F a b)
                        (λ b, sum_list_Z ((λ a', F a' b) <$> l1))).
    apply sum_ext. intros b _. by rewrite fmap_cons, sum_list_Z_cons.
Qed.

Lemma feasible_model_rows (materials : list Material) (bins : list Bin)
    (vv : LpVariable → option Q) :
  feasible (model_rows materials bins) vv = true →
  binary_values vv materials bins = true
  ∧ (∀ item, item ∈ materials → holds vv (coverage_row bins item) = true)
  ∧ (∀ b, b ∈ bins → holds vv (capacity_row materials b) = true)
  ∧ (∀ p, p ∈ rows materials bins → holds vv (compatibility_pair p) = true).
Proof.
  intros Hfeas. split; [by apply feasible_binary_values|].
  unfold feasible in Hfeas. apply andb_true_iff in Hfeas as [_ Hcs].
  rewrite forallb_elem_of in Hcs. simpl in Hcs.
  split_and!; intros r Hr; apply Hcs; rewrite !elem_of_app.
  - left. by apply list_elem_of_fmap_2.
  - right. left. by apply list_elem_of_fmap_2.
  - right. right. by apply list_elem_of_fmap_2.
Qed.

(** The counting argument, for any 0/1 table [β] that meets coverage,
    capacity and compatibility. *)
Section DemandSupply.
Variables (materials : list Material) (bins : list Bin).
Variable group : Material → bool.
Variable β : Material → Bin → Z.
Hypothesis sizes : ∀ item, item ∈ materials → 0 ≤ size item.
Hypothesis β_range : ∀ item b, 0 ≤ β item b ≤ 1.
Hypothesis coverage_sum :
  ∀ item, item ∈ materials → sum_list_Z (β item <$> bins) = 1.
Hypothesis capacity_sum :
  ∀ b, b ∈ bins →
       sum_list_Z ((λ item, β item b * size item) <$> materials) ≤ capacity b.
Hypothesis compatibility_bound :
  ∀ item b, item ∈ materials → b ∈ bins →
            β item b ≤ compatibility_entry item b.

Let slot (b : Bin) : bool :=
  existsb (λ item, group item && Z.eqb (compatibility_entry item b) 1)
          materials.

Lemma outside_slots item b :
  item ∈ materials → b ∈ bins → group item = true →
  β item b = indicator (slot b) * β item b.
Proof.
  intros Hi Hb Hg. unfold indicator. destruct (slot b) eqn:E; [lia|].
  pose proof (compatibility_bound item b Hi Hb) as Hle.
  pose proof (β_range item b) as Hr.
  assert (compatibility_entry item b ≠ 1) as Hne.
  { intros H1. unfold slot in E.
    assert (existsb (λ item, group item
                             && Z.eqb (compatibility_entry item b) 1)
                    materials = true) as Hex; [|congruence].
    apply existsb_exists. exists item. split; [by apply list_elem_of_In|].
    rewrite Hg, H1. done. }
  destruct (compatibility_entry_range item b); lia.
Qed.

Lemma demand_le_supply :
  demand group materials ≤ supply group materials bins.
Proof.
  unfold demand, supply, compatible_slots. fold slot.
  rewrite !sum_filter.
  (* demand, with the coverage sum of each material written out *)
  transitivity
    (sum_list_Z
       ((λ item,
           sum_list_Z
             ((λ b, indicator (slot b)
                    * (indicator (group item) * (β item b * size item)))
                <$> bins))
          <$> materials)).
  { apply Z.eq_le_incl, sum_ext. intros item Hi.
    unfold indicator at 1. destruct (group item) eqn:Hg.
    - transitivity (sum_list_Z ((λ b, size item * β item b) <$> bins)).
      + rewrite (sum_scale (size item) (β item)), (coverage_sum item Hi).
        lia.
      + apply sum_ext. intros b Hb.
        rewrite (outside_slots item b Hi Hb Hg) at 1.
        change (indicator true) with 1. ring.
    - transitivity 0; [lia|]. rewrite <- (sum_zero bins).
      apply sum_ext. intros b _. change (indicator false) with 0. lia. }
  rewrite sum_swap. apply sum_le. intros b Hb.
  rewrite sum_scale.
  assert (sum_list_Z
            ((λ item, indicator (group item) * (β item b * size item))
               <$> materials)
          ≤ capacity b) as Hle.
  { etransitivity; [|exact (capacity_sum b Hb)].
    apply sum_le. intros item Hi.
    pose proof (β_range item b). pose proof (sizes item Hi).
    unfold indicator. destruct (group item); nia. }
  unfold indicator at 1 3. destruct (slot b); lia.
Qed.
End DemandSupply.

Lemma bit_sum_capacity_bits (vv : LpVariable → option Q)
    (materials : list Material) (b : Bin) :
  bit_sum vv (expr (capacity_row materials b))
  = sum_list_Z ((λ item, bits vv item b * size item) <$> materials).
Proof.
  simpl. rewrite bit_sum_bind. apply sum_ext. intros item _.
  destruct (size item =? 0) eqn:E; [apply Z.eqb_eq in E; rewrite E|];
    unfold bit_sum, bits, sum_list_Z; simpl; lia.
Qed.

Lemma capacity_row_binary (vv : LpVariable → option Q)
    (materials : list Material) (bins : list Bin) (b : Bin) :
  binary_values vv materials bins = true → b ∈ bins →
  ∀ v, v ∈ expr_variables (expr (capacity_row materials b)) →
       in_domain LpBinary (vv v) = true.
Proof.
  intros Hbin Hb v Hv. unfold expr_variables in Hv.
  apply list_elem_of_fmap in Hv as (t & -> & Ht).
  apply elem_of_capacity_row in Ht as (item & Hi & ->).
  by apply (binary_values_pair vv materials bins).
Qed.

(** A feasible point gives such a table. *)
Section FeasiblePoint.
Variables (materials : list Material) (bins : list Bin).
Variable vv : LpVariable → option Q.
Hypothesis feas : feasible (model_rows materials bins) vv = true.

Lemma bits_range item b : 0 ≤ bits vv item b ≤ 1.
Proof.
  unfold bits. destruct (bit_range vv (x (material item) (bin b))); lia.
Qed.

Lemma feasible_coverage_sum item :
  item ∈ materials → sum_list_Z (bits vv item <$> bins) = 1.
Proof.
  intros Hi. destruct (feasible_model_rows _ _ _ feas) as (Hbin & Hcov & _).
  specialize (Hcov item Hi). apply holds_binary in Hcov.
  - simpl in Hcov. rewrite <- Hcov. unfold bit_sum.
    rewrite <- list_fmap_compose. apply sum_ext. intros b _. simpl.
    unfold bits. lia.
  - intros v Hv. unfold expr_variables in Hv. simpl in Hv.
    rewrite <- list_fmap_compose in Hv.
    apply list_elem_of_fmap in Hv as (b & -> & Hb).
    by apply (binary_values_pair vv materials bins).
Qed.

Lemma feasible_capacity_sum b :
  b ∈ bins →
  sum_list_Z ((λ item, bits vv item b * size item) <$> materials)
  ≤ capacity b.
Proof.
  intros Hb. destruct (feasible_model_rows _ _ _ feas) as (Hbin & _ & Hcap & _).
  specialize (Hcap b Hb). apply holds_binary in Hcap.
  - change (bit_sum vv (expr (capacity_row materials b)) ≤ capacity b)
      in Hcap.
    by rewrite bit_sum_capacity_bits in Hcap.
  - by apply (capacity_row_binary vv materials bins).
Qed.

Lemma feasible_compatibility_bound item b :
  item ∈ materials → b ∈ bins →
  bits vv item b ≤ compatibility_entry item b.
Proof.
  intros Hi Hb.
  destruct (feasible_model_rows _ _ _ feas) as (Hbin & _ & _ & Hcmp).
  specialize (Hcmp (item, b)). apply holds_binary in Hcmp.
  - simpl in Hcmp. unfold bit_sum in Hcmp. simpl in Hcmp.
    unfold sum_list_Z in Hcmp. simpl in Hcmp. unfold bits. lia.
  - intros v Hv. unfold expr_variables in Hv. simpl in Hv.
    apply list_elem_of_singleton in Hv as ->.
    by apply (binary_values_pair vv materials bins).
  - by apply elem_of_rows.
Qed.
End FeasiblePoint.

Lemma infeasible_when_demand_exceeds_supply (materials : list Material)
    (bins : list Bin) (group : Material → bool) (vv : LpVariable → option Q) :
  (∀ item, item ∈ materials → 0 ≤ size item) →
  supply group materials bins < demand group materials →
  feasible (model_rows materials bins) vv = false.
Proof.
  intros Hsizes Hlt. destruct (feasible _ vv) eqn:Hfeas; [|done].
  pose proof (demand_le_supply materials bins group (bits vv) Hsizes
                (bits_range vv)
                (feasible_coverage_sum materials bins vv Hfeas)
                (feasible_capacity_sum materials bins vv Hfeas)
                (feasible_compatibility_bound materials bins vv Hfeas)).
  lia.
Qed.

(** C1 (as the code has it): when a group of materials has a total size
    above the total capacity of the bins compatible with any of them, no
    feasible complete assignment exists: the model the code builds has no
    feasible point.  So it is for the notebook's data, where the hazardous
    M3, M6, M9 have sizes 6+2+4=12 and their only compatible bin B3 has
    capacity 10.  (The code has no error for this case; what the cell does
    after such a solve is not stated here.) *)
Theorem no_feasible_point_when_demand_exceeds_supply
    (materials : list Material) (bins : list Bin) (group : Material → bool) :
  unique_ids materials bins →
  (∀ item, item ∈ materials → 0 ≤ size item) →
  supply group materials bins < demand group materials →
  ∃ model, build_model materials bins = Ok model
    ∧ ∀ vv, feasible model vv = false.
Proof.
  intros Hu Hsizes Hlt. exists (model_rows materials bins).
  split; [by apply build_model_rows|].
  intros vv. by apply (infeasible_when_demand_exceeds_supply _ _ group).
Qed.

Lemma no_feasible_point_when_demand_exceeds_supply_witness :
  ∃ model, build_model Data.materials Data.bins = Ok model
    ∧ ∀ vv, feasible model vv = false.
Proof.
  apply (no_feasible_point_when_demand_exceeds_supply
           Data.materials Data.bins (has_tag "hazardous")).
  - split; by_eval.
  - apply Forall_forall. vm_compute. repeat constructor; discriminate.
  - vm_compute. reflexivity.
Defined.

(** C1, counterexample: on the notebook's data the hazardous materials need
    12 units and their compatible bins offer 10, and the cell, run with a
    solver that reports an infeasible problem and leaves values that print
    the stored assignment lines, ends normally with those lines printed: no
    error is raised. *)
Lemma infeasible_data_prints_assignment :
  demand (has_tag "hazardous") Data.materials = 12
  ∧ supply (has_tag "hazardous") Data.materials Data.bins = 10
  ∧ status <$> Stored.solve (model_rows Data.materials Data.bins) = Ok (-1)
  ∧ assignment <$> cell Stored.solve Data.materials Data.bins
    = Ok Stored.lines.
Proof. repeat split; vm_compute; reflexivity. Qed.

(** ** Printed mappings that pass the three checks *)

Lemma length_filter_sum {A : Type} (f : A → bool) (l : list A) :
  Z.of_nat (length (List.filter f l))
  = sum_list_Z ((λ a, indicator (f a)) <$> l).
Proof.
  induction l as [|a l IH]; [done|].
  rewrite fmap_cons, sum_list_Z_cons, <- IH. cbn [List.filter].
  unfold indicator. destruct (f a); simpl length; lia.
Qed.

Lemma load_bits (vv : LpVariable → option Q) (materials : list Material)
    (bins : list Bin) (b : Bin) :
  b ∈ bins →
  load vv materials bins (bin b)
  = sum_list_Z ((λ item, bits vv item b * size item) <$> materials).
Proof.
  intros Hb. unfold load. rewrite sum_filter. apply sum_ext.
  intros item Hi. by rewrite assigned_pair by done.
Qed.

Section Printed.
Variables (materials : list Material) (bins : list Bin).
Variable vv : LpVariable → option Q.
Hypothesis unique : unique_ids materials bins.
Hypothesis once : printed_once vv materials bins = true.
Hypothesis fits : within_capacity vv materials bins = true.
Hypothesis allowed : printed_compatible vv materials bins = true.

Lemma printed_coverage_sum item :
  item ∈ materials → sum_list_Z (bits vv item <$> bins) = 1.
Proof.
  intros Hi. unfold printed_once in once.
  rewrite forallb_elem_of in once.
  specialize (once (material item)
                (list_elem_of_fmap_2 material materials item Hi)).
  apply Nat.eqb_eq in once. unfold printed_bins, bin_col in once.
  rewrite filter_fmap, length_fmap in once.
  apply (f_equal Z.of_nat) in once. rewrite length_filter_sum in once.
  change (Z.of_nat 1) with 1 in once. rewrite <- once. apply sum_ext. intros b Hb.
  by rewrite assigned_pair by done.
Qed.

Lemma printed_capacity_sum b :
  b ∈ bins →
  sum_list_Z ((λ item, bits vv item b * size item) <$> materials)
  ≤ capacity b.
Proof.
  intros Hb. unfold within_capacity in fits.
  rewrite forallb_elem_of in fits. specialize (fits b Hb).
  apply Z.leb_le in fits. by rewrite load_bits in fits.
Qed.

Lemma printed_compatibility_bound item b :
  item ∈ materials → b ∈ bins →
  bits vv item b ≤ compatibility_entry item b.
Proof.
  intros Hi Hb. unfold bits, bit.
  destruct (is_one (vv (x (material item) (bin b)))) eqn:E.
  - unfold printed_compatible in allowed.
    rewrite forallb_elem_of in allowed.
    specialize (allowed (material item, bin b)).
    rewrite bool_decide_eq_true, compatibility_lookup in allowed by done.
    assert (Some (compatibility_entry item b) = Some 1) as [= ->]; [|done].
    apply allowed, elem_of_assigned.
    split; [by apply elem_of_x_keys_pair|done].
  - destruct (compatibility_entry_range item b); lia.
Qed.
End Printed.

Lemma no_complete_valid_mapping (materials : list Material) (bins : list Bin)
    (group : Material → bool) (vv : LpVariable → option Q) :
  unique_ids materials bins →
  (∀ item, item ∈ materials → 0 ≤ size item) →
  supply group materials bins < demand group materials →
  printed_once vv materials bins
  && within_capacity vv materials bins
  && printed_compatible vv materials bins = false.
Proof.
  intros Hu Hsizes Hlt.
  destruct (printed_once vv materials bins) eqn:Honce; [|done].
  destruct (within_capacity vv materials bins) eqn:Hfits; [|done].
  destruct (printed_compatible vv materials bins) eqn:Hallowed; [|done].
  pose proof (demand_le_supply materials bins group (bits vv) Hsizes
                (bits_range vv)
                (printed_coverage_sum materials bins vv Honce)
                (printed_capacity_sum materials bins vv Hfits)
                (printed_compatibility_bound materials bins vv Hu Hallowed)).
  lia.
Qed.

Lemma sizes_data : ∀ item, item ∈ Data.materials → 0 ≤ size item.
Proof. apply Forall_forall. vm_compute. repeat constructor; discriminate. Qed.

(** C6, at the notebook's own data: every material has its coverage
    constraint with [== 1] in the model, but no printed mapping can have
    every material exactly once and respect capacity and compatibility,
    whatever values the solver leaves; and with values that print the stored
    assignment lines, M7 and M9 are printed with no bin at all (capacity and
    compatibility are respected, coverage is not). *)
Theorem notebook_mapping_leaves_materials_out :
  (∀ vv, printed_once vv Data.materials Data.bins
         && within_capacity vv Data.materials Data.bins
         && printed_compatible vv Data.materials Data.bins = false)
  ∧ (∃ model, build_model Data.materials Data.bins = Ok model
       ∧ coverage_constraint Data.bins "M7" ∈ constraints model
       ∧ sense (coverage_constraint Data.bins "M7") = LpConstraintEQ
       ∧ rhs (coverage_constraint Data.bins "M7") = 1)
  ∧ report (varValue Stored.solved) Data.materials Data.bins = Stored.lines
  ∧ "M7" ∈ material_col Data.materials
  ∧ "M9" ∈ material_col Data.materials
  ∧ printed_bins (varValue Stored.solved) Data.materials Data.bins "M7" = []
  ∧ printed_bins (varValue Stored.solved) Data.materials Data.bins "M9" = []
  ∧ value (varValue Stored.solved) (expr (coverage_constraint Data.bins "M7"))
    = Some 0%Q
  ∧ printed_once (varValue Stored.solved) Data.materials Data.bins = false
  ∧ within_capacity (varValue Stored.solved) Data.materials Data.bins = true
  ∧ printed_compatible (varValue Stored.solved) Data.materials Data.bins
    = true.
Proof.
  split.
  { intros vv. apply (no_complete_valid_mapping _ _ (has_tag "hazardous")).
    - apply unique_ids_data.
    - apply sizes_data.
    - vm_compute. reflexivity. }
  split.
  { eexists. split; [vm_compute; reflexivity|]. split; [elem_of_eval|done]. }
  split; [vm_compute; reflexivity|].
  split; [elem_of_eval|]. split; [elem_of_eval|].
  repeat split; vm_compute; reflexivity.
Qed.


(** * Further properties of the cell *)

(** ** The dictionary: keys, overwriting, row order *)

Lemma compatibility_fold_skip_bin (materials : list Material) (bins : list Bin)
    (d : gmap (string * string) Z) (k : string * string) :
  k.2 ∉ bin_col bins →
  foldl (compatibility_row bins) d materials !! k = d !! k.
Proof.
  revert d. induction materials as [|item materials IH]; intros d Hk; [done|].
  simpl. rewrite IH by done. apply compatibility_row_skip. by right.
Qed.

Lemma compatibility_undefined (materials : list Material) (bins : list Bin)
    (k : string * string) :
  k ∉ x_keys materials bins → compatibility materials bins !! k = None.
Proof.
  rewrite elem_of_x_keys. intros Hk. unfold compatibility.
  destruct (decide (k.1 ∈ material_col materials)) as [Hi|Hi].
  - rewrite compatibility_fold_skip_bin; [apply lookup_empty|].
    intros Hb. by apply Hk.
  - rewrite compatibility_fold_skip by done. apply lookup_empty.
Qed.

Lemma length_x_keys (materials : list Material) (bins : list Bin) :
  length (x_keys materials bins) = (length materials * length bins)%nat.
Proof.
  unfold x_keys, material_col.
  induction materials as [|item materials IH]; [done|].
  rewrite fmap_cons, bind_cons, length_app, IH.
  rewrite (bind_singleton_fmap (λ b, (material item, b))).
  unfold bin_col. rewrite !length_fmap. simpl. lia.
Qed.

(** X1: with unique identifiers the loop that adds the compatibility
    constraints raises nothing, neither at [x[i][b]] nor at
    [compatibility[(i, b)]], and adds exactly one constraint per pair of a
    material row and a bin row, in loop order: [x[i][b] <= e] with [e] the
    entry, 0 or 1, that the rule gives the pair. *)
Theorem compatibility_constraints_in_loop_order (materials : list Material)
    (bins : list Bin) :
  unique_ids materials bins →
  compatibility_constraints materials bins
  = Ok ((λ p, {| expr := [(x (material p.1) (bin p.2), 1)];
                 sense := LpConstraintLE;
                 rhs := compatibility_entry p.1 p.2 |})
          <$> rows materials bins)
  ∧ length (rows materials bins) = (length materials * length bins)%nat
  ∧ ∀ p, p ∈ rows materials bins →
         compatibility materials bins !! (material p.1, bin p.2)
         = Some (compatibility_entry p.1 p.2)
         ∧ (compatibility_entry p.1 p.2 = 0 ∨ compatibility_entry p.1 p.2 = 1).
Proof.
  intros Hu. split_and!.
  - by apply compatibility_constraints_rows.
  - rewrite <- length_x_keys, x_keys_rows. by rewrite length_fmap.
  - intros p Hp. apply elem_of_rows in Hp as [Hi Hb]. split.
    + by apply compatibility_lookup.
    + apply compatibility_entry_range.
Qed.

Lemma compatibility_constraints_in_loop_order_witness :
  compatibility_constraints Scenario.materials Scenario.bins
  = Ok ((λ p, {| expr := [(x (material p.1) (bin p.2), 1)];
                 sense := LpConstraintLE;
                 rhs := compatibility_entry p.1 p.2 |})
          <$> rows Scenario.materials Scenario.bins)
  ∧ length (rows Scenario.materials Scenario.bins)
    = (length Scenario.materials * length Scenario.bins)%nat
  ∧ ∀ p, p ∈ rows Scenario.materials Scenario.bins →
         compatibility Scenario.materials Scenario.bins
           !! (material p.1, bin p.2)
         = Some (compatibility_entry p.1 p.2)
         ∧ (compatibility_entry p.1 p.2 = 0 ∨ compatibility_entry p.1 p.2 = 1).
Proof.
  apply (compatibility_constraints_in_loop_order
           Scenario.materials Scenario.bins).
  split; by_eval.
Defined.

(** X2: for every catalog, also one with repeated identifiers, the keys of
    the dictionary are exactly the pairs of a material identifier and a bin
    identifier of the frames, and every entry is 0 or 1. *)
Theorem compatibility_domain (materials : list Material) (bins : list Bin)
    (k : string * string) :
  (is_Some (compatibility materials bins !! k) ↔ k ∈ x_keys materials bins)
  ∧ (∀ c, compatibility materials bins !! k = Some c → c = 0 ∨ c = 1).
Proof.
  split.
  - split; [|apply compatibility_defined].
    intros Hsome. destruct (decide (k ∈ x_keys materials bins)); [done|].
    rewrite compatibility_undefined in Hsome by done.
    by destruct Hsome.
  - intros c. apply compatibility_range.
Qed.

Lemma compatibility_row_last (bs1 bs2 : list Bin) (b : Bin)
    (d : gmap (string * string) Z) (item : Material) :
  bin b ∉ bin_col bs2 →
  compatibility_row (bs1 ++ b :: bs2) d item !! (material item, bin b)
  = Some (compatibility_entry item b).
Proof.
  intros Hb. unfold compatibility_row. rewrite foldl_app. simpl.
  match goal with
  | |- foldl ?f ?d0 bs2 !! _ = _ =>
      change (foldl f d0 bs2) with (compatibility_row bs2 d0 item)
  end.
  rewrite compatibility_row_skip by (by right). apply lookup_insert_eq.
Qed.

(** X3: a later row overwrites an earlier one.  When identifiers repeat, the
    entry of a pair is the one computed from the last material row and the
    last bin row that carry the two identifiers. *)
Theorem last_row_wins (l1 l2 : list Material) (item : Material)
    (bs1 bs2 : list Bin) (b : Bin) :
  material item ∉ material_col l2 → bin b ∉ bin_col bs2 →
  compatibility (l1 ++ item :: l2) (bs1 ++ b :: bs2) !! (material item, bin b)
  = Some (compatibility_entry item b).
Proof.
  intros Hi Hb. unfold compatibility. rewrite foldl_app. simpl.
  rewrite compatibility_fold_skip by done.
  by apply compatibility_row_last.
Qed.

Lemma last_row_wins_witness :
  compatibility
    ([{| material := "M1"; frequency := 3; size := 5; tag := "fragile" |}]
     ++ {| material := "M1"; frequency := 1; size := 2; tag := "regular" |}
        :: [])
    ([] ++ {| bin := "B2"; capacity := 20; distance := 2; type := "regular" |}
        :: [])
    !! ("M1", "B2")
  = Some 1.
Proof.
  apply (last_row_wins
           [{| material := "M1"; frequency := 3; size := 5; tag := "fragile" |}]
           []
           {| material := "M1"; frequency := 1; size := 2; tag := "regular" |}
           [] []
           {| bin := "B2"; capacity := 20; distance := 2; type := "regular" |}).
  - by_eval.
  - by_eval.
Defined.

Lemma unique_ids_perm (materials materials' : list Material)
    (bins bins' : list Bin) :
  materials ≡ₚ materials' → bins ≡ₚ bins' →
  unique_ids materials bins → unique_ids materials' bins'.
Proof.
  intros Hm Hb [H1 H2]. unfold unique_ids, material_col, bin_col.
  by rewrite <- Hm, <- Hb.
Qed.

Lemma x_keys_perm (materials materials' : list Material)
    (bins bins' : list Bin) (k : string * string) :
  materials ≡ₚ materials' → bins ≡ₚ bins' →
  k ∈ x_keys materials bins → k ∈ x_keys materials' bins'.
Proof.
  intros Hm Hb. rewrite !elem_of_x_keys. unfold material_col, bin_col.
  by rewrite Hm, Hb.
Qed.

(** X4: with unique identifiers the dictionary does not depend on the order
    of the rows of the two frames. *)
Theorem compatibility_row_order (materials materials' : list Material)
    (bins bins' : list Bin) :
  unique_ids materials bins →
  materials ≡ₚ materials' → bins ≡ₚ bins' →
  compatibility materials bins = compatibility materials' bins'.
Proof.
  intros Hu Hm Hb. apply map_eq. intros k.
  destruct (decide (k ∈ x_keys materials bins)) as [Hk|Hk].
  - apply elem_of_x_keys in Hk as [Hi Hbn].
    apply list_elem_of_fmap in Hi as (item & Hitem & Hi).
    apply list_elem_of_fmap in Hbn as (b & Hbin & Hbn).
    destruct k as [i j]. simpl in *. subst i j.
    rewrite compatibility_lookup by done.
    rewrite compatibility_lookup; [done| | |].
    + by apply (unique_ids_perm materials _ bins).
    + by rewrite <- Hm.
    + by rewrite <- Hb.
  - rewrite compatibility_undefined by done.
    rewrite compatibility_undefined; [done|].
    intros Hk'. apply Hk. by apply (x_keys_perm materials' _ bins').
Qed.

Lemma compatibility_row_order_witness :
  compatibility Scenario.materials Scenario.bins
  = compatibility Scenario.materials (reverse Scenario.bins).
Proof.
  apply (compatibility_row_order Scenario.materials Scenario.materials
           Scenario.bins (reverse Scenario.bins)).
  - split; by_eval.
  - reflexivity.
  - symmetry. apply reverse_Permutation.
Defined.

(** ** Feasible points and printed mappings *)

Lemma holds_binary_iff (vv : LpVariable → option Q) (c : LpConstraint) :
  (∀ v, v ∈ expr_variables (expr c) → in_domain LpBinary (vv v) = true) →
  holds vv c = true
  ↔ match sense c with
    | LpConstraintLE => bit_sum vv (expr c) ≤ rhs c
    | LpConstraintEQ => bit_sum vv (expr c) = rhs c
    | LpConstraintGE => rhs c ≤ bit_sum vv (expr c)
    end.
Proof.
  intros Hb. split; [by apply holds_binary|]. unfold holds.
  destruct (value_binary vv (expr c) Hb) as (q & -> & Heq).
  destruct (sense c); intros H.
  - apply Qle_bool_iff. rewrite Heq. by rewrite <- Zle_Qle.
  - apply Qeq_bool_iff. rewrite Heq. by rewrite H.
  - apply Qle_bool_iff. rewrite Heq. by rewrite <- Zle_Qle.
Qed.

Lemma bit_sum_coverage_bits (vv : LpVariable → option Q) (bins : list Bin)
    (item : Material) :
  bit_sum vv (expr (coverage_row bins item))
  = sum_list_Z (bits vv item <$> bins).
Proof.
  unfold bit_sum. simpl. rewrite <- list_fmap_compose.
  apply sum_ext. intros b _. simpl. unfold bits. lia.
Qed.

Lemma bit_sum_compatibility_bits (vv : LpVariable → option Q)
    (p : Material * Bin) :
  bit_sum vv (expr (compatibility_pair p)) = bits vv p.1 p.2.
Proof. unfold bit_sum, bits, sum_list_Z. simpl. lia. Qed.

Section Table.
Variables (materials : list Material) (bins : list Bin).
Variable vv : LpVariable → option Q.

Lemma feasible_table :
  feasible (model_rows materials bins) vv = true
  ↔ binary_values vv materials bins = true ∧ table_ok vv materials bins.
Proof.
  split.
  - intros Hfeas. split; [by apply feasible_binary_values|].
    split_and!.
    + by apply feasible_coverage_sum.
    + by apply feasible_capacity_sum.
    + by apply feasible_compatibility_bound.
  - intros (Hbin & Hcov & Hcap & Hcmp). unfold feasible.
    apply andb_true_iff. split; apply forallb_elem_of.
    + intros v Hv. apply variables_model_rows in Hv as (p & Hp & ->).
      apply elem_of_rows in Hp as [Hi Hb].
      by apply (binary_values_pair vv materials bins).
    + intros c Hc. simpl in Hc. rewrite !elem_of_app in Hc.
      destruct Hc as [Hc|[Hc|Hc]];
        apply list_elem_of_fmap in Hc as (r & -> & Hr).
      * apply holds_binary_iff.
        -- intros v Hv. unfold expr_variables in Hv. simpl in Hv.
           rewrite <- list_fmap_compose in Hv.
           apply list_elem_of_fmap in Hv as (b & -> & Hb).
           by apply (binary_values_pair vv materials bins).
        -- change (bit_sum vv (expr (coverage_row bins r)) = 1).
           rewrite bit_sum_coverage_bits. by apply Hcov.
      * apply holds_binary_iff.
        -- by apply (capacity_row_binary vv materials bins).
        -- change (bit_sum vv (expr (capacity_row materials r)) ≤ capacity r).
           rewrite bit_sum_capacity_bits. by apply Hcap.
      * apply elem_of_rows in Hr as [Hi Hb]. apply holds_binary_iff.
        -- intros v Hv. unfold expr_variables in Hv. simpl in Hv.
           apply list_elem_of_singleton in Hv as ->.
           by apply (binary_values_pair vv materials bins).
        -- change (bit_sum vv (expr (compatibility_pair r))
                   ≤ compatibility_entry r.1 r.2).
           rewrite bit_sum_compatibility_bits. by apply Hcmp.
Qed.

Lemma printed_table :
  unique_ids materials bins →
  printed_once vv materials bins
  && within_capacity vv materials bins
  && printed_compatible vv materials bins = true
  ↔ table_ok vv materials bins.
Proof.
  intros Hu. rewrite !andb_true_iff. split.
  - intros [[Honce Hfits] Hallowed]. split_and!.
    + by apply printed_coverage_sum.
    + by apply printed_capacity_sum.
    + by apply printed_compatibility_bound.
  - intros (Hcov & Hcap & Hcmp). split_and!.
    + apply forallb_elem_of. intros i Hi.
      apply list_elem_of_fmap in Hi as (item & -> & Hitem).
      apply Nat.eqb_eq, Nat2Z.inj. unfold printed_bins, bin_col.
      rewrite filter_fmap, length_fmap, length_filter_sum.
      change (Z.of_nat 1) with 1.
      rewrite <- (Hcov item Hitem). apply sum_ext. intros b Hb.
      by rewrite assigned_pair by done.
    + apply forallb_elem_of. intros b Hb. apply Z.leb_le.
      rewrite load_bits by done. by apply Hcap.
    + apply forallb_elem_of. intros k Hk. apply bool_decide_eq_true.
      apply elem_of_assigned in Hk as [Hk Hone].
      apply elem_of_x_keys in Hk as [Hi Hb].
      apply list_elem_of_fmap in Hi as (item & Hitem & Hi).
      apply list_elem_of_fmap in Hb as (b & Hbin & Hb).
      destruct k as [i j]. simpl in *. subst i j.
      rewrite compatibility_lookup by done. f_equal.
      pose proof (Hcmp item b Hi Hb) as Hle. unfold bits, bit in Hle.
      rewrite Hone in Hle.
      destruct (compatibility_entry_range item b); lia.
Qed.
End Table.

(** X7: the model says what a valid printed mapping is.  With unique
    identifiers, values are a feasible point of the built model exactly when
    they are all 0 or 1 and the printed mapping has every material with
    exactly one bin, loads no bin beyond its capacity, and pairs only
    materials and bins whose dictionary entry is 1. *)
Theorem feasible_iff_valid_mapping (materials : list Material)
    (bins : list Bin) (model : LpProblem) (vv : LpVariable → option Q) :
  unique_ids materials bins →
  build_model materials bins = Ok model →
  feasible model vv = true
  ↔ binary_values vv materials bins = true
    ∧ printed_once vv materials bins = true
    ∧ within_capacity vv materials bins = true
    ∧ printed_compatible vv materials bins = true.
Proof.
  intros Hu Hmodel. rewrite build_model_rows in Hmodel by done.
  injection Hmodel as <-. rewrite feasible_table.
  rewrite <- (printed_table materials bins vv Hu), !andb_true_iff.
  tauto.
Qed.

Lemma feasible_iff_valid_mapping_witness :
  feasible (model_rows Scenario.materials Scenario.bins)
           (varValue Scenario.solved) = true
  ↔ binary_values (varValue Scenario.solved)
      Scenario.materials Scenario.bins = true
    ∧ printed_once (varValue Scenario.solved)
        Scenario.materials Scenario.bins = true
    ∧ within_capacity (varValue Scenario.solved)
        Scenario.materials Scenario.bins = true
    ∧ printed_compatible (varValue Scenario.solved)
        Scenario.materials Scenario.bins = true.
Proof.
  apply (feasible_iff_valid_mapping Scenario.materials Scenario.bins).
  - split; by_eval.
  - vm_compute. reflexivity.
Defined.

(** X6: a material that is compatible with no bin of the catalog (so also
    any material when there is no bin at all) makes the model infeasible:
    no values meet its coverage constraint and the compatibility
    constraints together. *)
Theorem unplaceable_material_infeasible (materials : list Material)
    (bins : list Bin) (model : LpProblem) (item : Material)
    (vv : LpVariable → option Q) :
  unique_ids materials bins →
  build_model materials bins = Ok model →
  item ∈ materials →
  (∀ b, b ∈ bins → compatibility_entry item b = 0) →
  feasible model vv = false.
Proof.
  intros Hu Hmodel Hi Hnone. rewrite build_model_rows in Hmodel by done.
  injection Hmodel as <-.
  destruct (feasible _ vv) eqn:Hfeas; [|done].
  apply feasible_table in Hfeas as (_ & Hcov & _ & Hcmp).
  specialize (Hcov item Hi).
  rewrite (sum_ext (bits vv item) (λ _, 0)), sum_zero in Hcov; [done|].
  intros b Hb. specialize (Hcmp item b Hi Hb). rewrite (Hnone b Hb) in Hcmp.
  pose proof (bits_range vv item b). lia.
Qed.

Lemma unplaceable_material_infeasible_witness :
  feasible
    (model_rows Scenario.materials
       [{| bin := "B3"; capacity := 10; distance := 3; type := "special" |}])
    (varValue Scenario.solved) = false.
Proof.
  apply (unplaceable_material_infeasible Scenario.materials
           [{| bin := "B3"; capacity := 10; distance := 3; type := "special" |}]
           _
           {| material := "M1"; frequency := 3; size := 5; tag := "fragile" |}).
  - split; by_eval.
  - vm_compute. reflexivity.
  - elem_of_eval.
  - apply Forall_forall. vm_compute. repeat constructor.
Defined.

(** X10: raising capacities keeps feasible points feasible.  If the bins
    are replaced by bins with the same identifiers and types and capacities
    at least as large (distances may change), every feasible point of the
    old model is a feasible point of the new one. *)
Theorem raising_capacity_keeps_feasible (materials : list Material)
    (bins : list Bin) (raise : Bin → Bin) (model model' : LpProblem)
    (vv : LpVariable → option Q) :
  unique_ids materials bins →
  (∀ b, b ∈ bins → bin (raise b) = bin b ∧ type (raise b) = type b
                   ∧ capacity b ≤ capacity (raise b)) →
  build_model materials bins = Ok model →
  build_model materials (raise <$> bins) = Ok model' →
  feasible model vv = true → feasible model' vv = true.
Proof.
  intros Hu Hraise Hmodel Hmodel'.
  assert (bin_col (raise <$> bins) = bin_col bins) as Hcol.
  { unfold bin_col. rewrite <- list_fmap_compose.
    apply list_fmap_ext. intros n b Hb. simpl.
    apply list_elem_of_lookup_2 in Hb. by apply Hraise. }
  assert (unique_ids materials (raise <$> bins)) as Hu'.
  { destruct Hu as [Hm Hn]. split; [done|]. by rewrite Hcol. }
  rewrite build_model_rows in Hmodel, Hmodel' by done.
  injection Hmodel as <-. injection Hmodel' as <-.
  rewrite !feasible_table. intros (Hbin & Hcov & Hcap & Hcmp).
  assert (∀ item b, b ∈ bins → bits vv item (raise b) = bits vv item b)
    as Hbits.
  { intros item b Hb. unfold bits. by rewrite (proj1 (Hraise b Hb)). }
  split; [|split_and!].
  - unfold binary_values, x_keys in *. by rewrite Hcol.
  - intros item Hi. rewrite <- (Hcov item Hi), <- list_fmap_compose.
    apply sum_ext. intros b Hb. by apply Hbits.
  - intros b' Hb'. apply list_elem_of_fmap in Hb' as (b & -> & Hb).
    destruct (Hraise b Hb) as (_ & _ & Hle).
    etransitivity; [|exact Hle]. etransitivity; [|exact (Hcap b Hb)].
    apply Z.eq_le_incl, sum_ext. intros item _. by rewrite Hbits.
  - intros item b' Hi Hb'. apply list_elem_of_fmap in Hb' as (b & -> & Hb).
    destruct (Hraise b Hb) as (_ & Hty & _).
    rewrite Hbits by done.
    rewrite (compatibility_entry_ext item item (raise b) b) by done.
    by apply Hcmp.
Qed.

Lemma raising_capacity_keeps_feasible_witness :
  feasible
    (model_rows Scenario.materials
       ((λ b, {| bin := bin b; capacity := capacity b + 5;
                 distance := distance b; type := type b |})
          <$> Scenario.bins))
    (varValue Scenario.solved) = true.
Proof.
  apply (raising_capacity_keeps_feasible Scenario.materials Scenario.bins
           (λ b, {| bin := bin b; capacity := capacity b + 5;
                    distance := distance b; type := type b |})
           (model_rows Scenario.materials Scenario.bins)).
  - split; by_eval.
  - intros b _. simpl. split_and!; [done|done|lia].
  - vm_compute. reflexivity.
  - vm_compute. reflexivity.
  - vm_compute. reflexivity.
Defined.

(** ** Sizes, order and repetitions *)

Lemma NoDup_x_keys (materials : list Material) (bins : list Bin) :
  unique_ids materials bins → NoDup (x_keys materials bins).
Proof.
  intros [Hm Hb]. unfold x_keys. apply NoDup_bind; [| |done].
  - intros i1 i2 k _ _ H1 H2.
    apply list_elem_of_bind in H1 as (b1 & H1 & _).
    apply list_elem_of_bind in H2 as (b2 & H2 & _).
    apply list_elem_of_singleton in H1, H2. congruence.
  - intros i _. apply NoDup_bind; [| |done].
    + intros b1 b2 k _ _ H1 H2.
      apply list_elem_of_singleton in H1, H2. congruence.
    + intros b _. apply NoDup_singleton.
Qed.

Lemma length_rows (materials : list Material) (bins : list Bin) :
  length (rows materials bins) = (length materials * length bins)%nat.
Proof.
  rewrite <- length_x_keys, x_keys_rows. by rewrite length_fmap.
Qed.

Lemma length_bind_drop {A B : Type} (c : A → bool) (t : A → B) (l : list A) :
  length (l ≫= λ a, if c a then [] else [t a])
  = length (List.filter (λ a, negb (c a)) l)
  ∧ (length (List.filter (λ a, negb (c a)) l) ≤ length l)%nat.
Proof.
  induction l as [|a l [IH1 IH2]]; [done|].
  rewrite bind_cons, length_app, IH1. cbn [List.filter].
  destruct (c a); simpl; split; lia.
Qed.

(** X5: the size of what is built.  With unique identifiers the dictionary
    has one entry per pair of a material and a bin; the model has one
    constraint per material, one per bin and one per pair; and the
    objective has one term per pair whose frequency and distance are both
    different from 0, so at most one per pair. *)
Theorem model_size (materials : list Material) (bins : list Bin)
    (model : LpProblem) :
  unique_ids materials bins →
  build_model materials bins = Ok model →
  base.size (compatibility materials bins)
  = (length materials * length bins)%nat
  ∧ length (constraints model)
    = (length materials + length bins
       + length materials * length bins)%nat
  ∧ length (objective model)
    = length (List.filter
                (λ p, negb ((frequency p.1 =? 0) || (distance p.2 =? 0)))
                (rows materials bins))
  ∧ (length (objective model) ≤ length materials * length bins)%nat.
Proof.
  intros Hu Hmodel. rewrite build_model_rows in Hmodel by done.
  injection Hmodel as <-.
  destruct (length_bind_drop
              (λ p : Material * Bin,
                 (frequency p.1 =? 0) || (distance p.2 =? 0))
              (λ p, (x (material p.1) (bin p.2),
                     int64 (frequency p.1 * distance p.2)))
              (rows materials bins)) as [Hlen Hle].
  split_and!.
  - rewrite <- length_x_keys, <- (size_list_to_set (C:=gset (string * string)))
      by (by apply NoDup_x_keys).
    rewrite <- size_dom. f_equal. apply set_eq. intros k.
    rewrite elem_of_dom, elem_of_list_to_set. split.
    + intros Hsome. destruct (decide (k ∈ x_keys materials bins)); [done|].
      rewrite compatibility_undefined in Hsome by done. by destruct Hsome.
    + apply compatibility_defined.
  - simpl. rewrite !length_app, !length_fmap, length_rows. lia.
  - exact Hlen.
  - simpl. unfold objective_rows. rewrite Hlen, <- length_rows. exact Hle.
Qed.

Lemma model_size_witness :
  base.size (compatibility Data.materials Data.bins)
  = (length Data.materials * length Data.bins)%nat
  ∧ length (constraints (model_rows Data.materials Data.bins))
    = (length Data.materials + length Data.bins
       + length Data.materials * length Data.bins)%nat
  ∧ length (objective (model_rows Data.materials Data.bins))
    = length (List.filter
                (λ p, negb ((frequency p.1 =? 0) || (distance p.2 =? 0)))
                (rows Data.materials Data.bins))
  ∧ (length (objective (model_rows Data.materials Data.bins))
     ≤ length Data.materials * length Data.bins)%nat.
Proof.
  apply (model_size Data.materials Data.bins).
  - split; by_eval.
  - vm_compute. reflexivity.
Defined.

Lemma assigned_sublist (vv : LpVariable → option Q) (materials : list Material)
    (bins : list Bin) :
  assigned vv materials bins `sublist_of` x_keys materials bins.
Proof.
  unfold assigned, x_keys.
  induction (material_col materials) as [|i l IH]; [constructor|].
  rewrite !bind_cons. apply sublist_app; [|done]. clear IH.
  induction (bin_col bins) as [|b bs IHb]; [constructor|].
  rewrite !bind_cons. apply sublist_app; [|exact IHb].
  destruct (is_one _); [reflexivity|apply sublist_nil_l].
Qed.

(** X9: the printing loop never prints a pair twice and keeps the order of
    the frames: with unique identifiers the printed pairs have no
    repetition, and they are a subsequence of the pairs in loop order. *)
Theorem report_without_repetition (vv : LpVariable → option Q)
    (materials : list Material) (bins : list Bin) :
  unique_ids materials bins →
  NoDup (assigned vv materials bins)
  ∧ assigned vv materials bins `sublist_of` x_keys materials bins.
Proof.
  intros Hu. split; [|apply assigned_sublist].
  apply (sublist_NoDup _ (x_keys materials bins)).
  - by apply NoDup_x_keys.
  - apply assigned_sublist.
Qed.

Lemma report_without_repetition_witness :
  NoDup (assigned (varValue Stored.solved) Data.materials Data.bins)
  ∧ assigned (varValue Stored.solved) Data.materials Data.bins
    `sublist_of` x_keys Data.materials Data.bins.
Proof.
  apply (report_without_repetition (varValue Stored.solved)
           Data.materials Data.bins).
  split; by_eval.
Defined.

Lemma assigned_inner_labels (vv : LpVariable → option Q) (l : list string)
    (i : string) :
  (l ≫= λ b, if is_one (vv (x i b)) then [(i, b)] else [])
  = (λ b, (i, b)) <$> List.filter (λ b, is_one (vv (x i b))) l.
Proof.
  induction l as [|b l IH]; [done|].
  rewrite bind_cons, IH. cbn [List.filter]. by destruct (is_one _).
Qed.

Lemma bind_fst {A B : Type} (f : A → list (A * B)) (l : list A) :
  (∀ a, a ∈ l → (f a).*1 = [a]) → (l ≫= f).*1 = l.
Proof.
  induction l as [|a l IH]; intros Hf; [done|].
  rewrite bind_cons, fmap_app, (Hf a) by left.
  rewrite IH; [done|]. intros a' Ha'. apply Hf. by right.
Qed.

(** X8: at values that are 0 or 1 and meet the coverage constraints, the
    report has exactly one line per row of the materials frame, in the order
    of that frame (whether or not identifiers repeat). *)
Theorem report_follows_materials (vv : LpVariable → option Q)
    (materials : list Material) (bins : list Bin) :
  binary_values vv materials bins = true →
  forallb (holds vv) (coverage_constraints materials bins) = true →
  (assigned vv materials bins).*1 = material_col materials
  ∧ length (report vv materials bins) = length materials.
Proof.
  intros Hbin Hcov.
  assert ((assigned vv materials bins).*1 = material_col materials) as Hfst.
  { unfold assigned. apply bind_fst. intros i Hi.
    rewrite assigned_inner_labels, <- list_fmap_compose.
    rewrite forallb_elem_of in Hcov.
    specialize (Hcov (coverage_constraint bins i)
                  (list_elem_of_fmap_2 _ _ _ Hi)).
    apply holds_binary in Hcov.
    - simpl in Hcov. unfold lpSum, bit_sum in Hcov.
      rewrite (concat_singleton_fmap (λ b, (x i b, 1))) in Hcov.
      rewrite <- list_fmap_compose in Hcov.
      rewrite (sum_ext _ (λ b, indicator (is_one (vv (x i b))))) in Hcov.
      + rewrite <- length_filter_sum in Hcov.
        destruct (List.filter _ (bin_col bins)) as [|b0 [|b1 rest]];
          simpl in Hcov; [lia|done|lia].
      + intros b _. simpl. unfold bit, indicator. destruct (is_one _); lia.
    - intros v Hv. unfold expr_variables in Hv. simpl in Hv.
      unfold lpSum in Hv.
      rewrite (concat_singleton_fmap (λ b, (x i b, 1))) in Hv.
      rewrite <- list_fmap_compose in Hv.
      apply list_elem_of_fmap in Hv as (b & -> & Hb).
      unfold binary_values in Hbin. rewrite forallb_elem_of in Hbin.
      apply (Hbin (i, b)). by apply elem_of_x_keys. }
  split; [done|].
  unfold report. rewrite length_fmap, <- (length_fmap fst), Hfst.
  unfold material_col. by rewrite length_fmap.
Qed.

Lemma report_follows_materials_witness :
  (assigned (varValue Scenario.solved) Scenario.materials Scenario.bins).*1
  = material_col Scenario.materials
  ∧ length (report (varValue Scenario.solved)
              Scenario.materials Scenario.bins)
    = length Scenario.materials.
Proof.
  apply (report_follows_materials (varValue Scenario.solved)
           Scenario.materials Scenario.bins).
  - vm_compute. reflexivity.
  - vm_compute. reflexivity.
Defined.

Lemma assigned_no_bins (vv : LpVariable → option Q)
    (materials : list Material) :
  assigned vv materials [] = [].
Proof.
  unfold assigned. induction (material_col materials) as [|i l IH]; [done|].
  by rewrite bind_cons, IH.
Qed.

Lemma rows_no_bins (materials : list Material) : rows materials [] = [].
Proof.
  unfold rows. induction materials as [|item l IH]; [done|].
  by rewrite bind_cons, IH.
Qed.

(** X11: an empty frame.  With unique identifiers, when the materials frame
    or the bins frame is empty and the solver call returns, the cell prints
    no assignment line and, the objective having no term, no number for the
    total ([None]). *)
Theorem empty_frame_prints_nothing (solve : LpProblem → PyResult Solved)
    (materials : list Material) (bins : list Bin) (model : LpProblem)
    (s : Solved) :
  unique_ids materials bins →
  materials = [] ∨ bins = [] →
  build_model materials bins = Ok model →
  solve model = Ok s →
  cell solve materials bins
  = Ok {| assignment := []; total_weighted_distance := None |}.
Proof.
  intros Hu Hempty Hmodel Hsolve. unfold cell. rewrite Hmodel. simpl.
  rewrite Hsolve. simpl.
  rewrite build_model_rows in Hmodel by done. injection Hmodel as <-.
  simpl. unfold report, objective_rows.
  destruct Hempty as [-> | ->]; [done|].
  by rewrite assigned_no_bins, rows_no_bins.
Qed.

Lemma empty_frame_prints_nothing_witness :
  cell Stored.solve [] Data.bins
  = Ok {| assignment := []; total_weighted_distance := None |}.
Proof.
  apply (empty_frame_prints_nothing Stored.solve [] Data.bins
           (model_rows [] Data.bins) Stored.solved).
  - split; by_eval.
  - by left.
  - vm_compute. reflexivity.
  - reflexivity.
Defined.

(** X12: the printed total of 0/1 values, feasible or not.  With unique
    identifiers, an objective that has a term and products frequency times
    distance that add up, in absolute value, to at most 2^53, whenever the
    solver call returns with every variable at 0 or 1
    the total the cell prints equals the sum, recomputed from the frames, of
    frequency times distance over the printed pairs; a total that differs
    from that sum shows that some variable was left with another value. *)
Theorem total_of_binary_values (solve : LpProblem → PyResult Solved)
    (materials : list Material) (bins : list Bin) (model : LpProblem)
    (s : Solved) :
  unique_ids materials bins →
  products_exact materials bins = true →
  build_model materials bins = Ok model →
  objective model ≠ [] →
  solve model = Ok s →
  binary_values (varValue s) materials bins = true →
  ∃ out q,
    cell solve materials bins = Ok out
    ∧ assignment out = report (varValue s) materials bins
    ∧ total_weighted_distance out = Some q
    ∧ (q == inject_Z (recomputed materials bins
                        (assigned (varValue s) materials bins)))%Q.
Proof.
  intros Hu Hfit Hmodel Hne Hsolve Hbin. apply products_exact_fit in Hfit.
  rewrite build_model_rows in Hmodel by done. injection Hmodel as <-.
  destruct (total_of_bits materials bins (varValue s) Hfit Hne Hbin)
    as (q & Hq & Heq).
  exists {| assignment := report (varValue s) materials bins;
            total_weighted_distance := Some q |}, q.
  split_and!; [|done|done|done].
  unfold cell. rewrite build_model_rows by done. simpl.
  rewrite Hsolve. simpl. by rewrite Hq.
Qed.

Lemma total_of_binary_values_witness :
  ∃ out q,
    cell Overfull.solve Overfull.materials Overfull.bins = Ok out
    ∧ assignment out
      = report (varValue Overfull.solved) Overfull.materials Overfull.bins
    ∧ total_weighted_distance out = Some q
    ∧ (q == inject_Z (recomputed Overfull.materials Overfull.bins
                        (assigned (varValue Overfull.solved)
                           Overfull.materials Overfull.bins)))%Q.
Proof.
  apply (total_of_binary_values Overfull.solve
           Overfull.materials Overfull.bins
           (model_rows Overfull.materials Overfull.bins) Overfull.solved).
  - split; by_eval.
  - vm_compute. reflexivity.
  - vm_compute. reflexivity.
  - vm_compute. discriminate.
  - reflexivity.
  - vm_compute. reflexivity.
Defined.

(** ** The report, line by line *)

Lemma assigned_filter (vv : LpVariable → option Q) (materials : list Material)
    (bins : list Bin) :
  assigned vv materials bins
  = List.filter (λ k, is_one (vv (x k.1 k.2))) (x_keys materials bins).
Proof.
  unfold assigned, x_keys.
  induction (material_col materials) as [|i l IH]; [done|].
  rewrite !bind_cons, List.filter_app, IH. f_equal. clear IH.
  induction (bin_col bins) as [|b bs IHb]; [done|].
  rewrite !bind_cons, List.filter_app, IHb.
  f_equal; simpl; by destruct (is_one _).
Qed.

(** C7 (as the code has it): with unique identifiers the report is exactly
    the list of the lines "i -> b" of the pairs whose variable has the value
    1, taken in loop order (the materials in frame order, for each the bins
    in frame order), each such pair once; a material none of whose
    variables has the value 1 gets no line, and no other line or marker is
    printed. *)
Theorem report_lists_pairs_of_value_one (vv : LpVariable → option Q)
    (materials : list Material) (bins : list Bin) :
  unique_ids materials bins →
  report vv materials bins
  = line <$> List.filter (λ k, is_one (vv (x k.1 k.2)))
                         (x_keys materials bins)
  ∧ NoDup (x_keys materials bins)
  ∧ NoDup (assigned vv materials bins)
  ∧ (∀ l, l ∈ report vv materials bins
          ↔ ∃ i b, i ∈ material_col materials ∧ b ∈ bin_col bins
                   ∧ is_one (vv (x i b)) = true
                   ∧ l = i +:+ " -> " +:+ b)
  ∧ (∀ i, (∀ b, b ∈ bin_col bins → is_one (vv (x i b)) = false) →
          ∀ b, (i, b) ∉ assigned vv materials bins).
Proof.
  intros Hu. split_and!.
  - unfold report. by rewrite assigned_filter.
  - by apply NoDup_x_keys.
  - apply (sublist_NoDup _ (x_keys materials bins)).
    + by apply NoDup_x_keys.
    + apply assigned_sublist.
  - intros l. unfold report. rewrite list_elem_of_fmap. split.
    + intros ([i b] & -> & Hk). apply elem_of_assigned in Hk as [Hk Hone].
      apply elem_of_x_keys in Hk as [Hi Hb]. by exists i, b.
    + intros (i & b & Hi & Hb & Hone & ->). exists (i, b). split; [done|].
      apply elem_of_assigned. split; [by apply elem_of_x_keys|done].
  - intros i Hnone b Hk. apply elem_of_assigned in Hk as [Hk Hone].
    apply elem_of_x_keys in Hk as [_ Hb]. simpl in *.
    rewrite Hnone in Hone; done.
Qed.

Lemma report_lists_pairs_of_value_one_witness :
  report (varValue Stored.solved) Data.materials Data.bins
  = line <$> List.filter (λ k, is_one (varValue Stored.solved (x k.1 k.2)))
                         (x_keys Data.materials Data.bins)
  ∧ NoDup (x_keys Data.materials Data.bins)
  ∧ NoDup (assigned (varValue Stored.solved) Data.materials Data.bins)
  ∧ (∀ l, l ∈ report (varValue Stored.solved) Data.materials Data.bins
          ↔ ∃ i b, i ∈ material_col Data.materials ∧ b ∈ bin_col Data.bins
                   ∧ is_one (varValue Stored.solved (x i b)) = true
                   ∧ l = i +:+ " -> " +:+ b)
  ∧ (∀ i, (∀ b, b ∈ bin_col Data.bins →
                is_one (varValue Stored.solved (x i b)) = false) →
          ∀ b, (i, b)
               ∉ assigned (varValue Stored.solved) Data.materials Data.bins).
Proof.
  apply (report_lists_pairs_of_value_one (varValue Stored.solved)
           Data.materials Data.bins).
  split; by_eval.
Defined.

(** ** Printed mappings after an infeasible solve *)

(** The whole stored output is what the cell prints for the values
    [Stored.relaxed]: the eight lines and the total 34 (stored:
    34.000000029999995).  These values are not all 0 or 1. *)
Lemma stored_output_reproduced :
  assignment <$> cell (λ _, Ok Stored.relaxed) Data.materials Data.bins
  = Ok Stored.lines
  ∧ (∃ q, total_weighted_distance
            <$> cell (λ _, Ok Stored.relaxed) Data.materials Data.bins
          = Ok (Some q)
          ∧ (q == 34)%Q)
  ∧ binary_values (varValue Stored.relaxed) Data.materials Data.bins = false.
Proof.
  split; [vm_compute; reflexivity|]. split; [|vm_compute; reflexivity].
  eexists. split; [vm_compute; reflexivity|]. vm_compute. reflexivity.
Qed.

(** C4, at a catalog whose only material (size 20) is larger than its only
    bin (capacity 10): the model has the capacity constraint of the bin and
    no feasible point, so no printed mapping passes the three checks,
    whatever the solver leaves; the cell does not read the status, and with
    the variable left at 1 it prints "M1 -> B1", a load of 20 in a bin of
    capacity 10. *)
Theorem printed_load_exceeds_capacity :
  (∃ model, build_model Overfull.materials Overfull.bins = Ok model
      ∧ {| expr := [(x "M1" "B1", 20)]; sense := LpConstraintLE; rhs := 10 |}
        ∈ constraints model
      ∧ ∀ vv, feasible model vv = false)
  ∧ (∀ vv, printed_once vv Overfull.materials Overfull.bins
           && within_capacity vv Overfull.materials Overfull.bins
           && printed_compatible vv Overfull.materials Overfull.bins = false)
  ∧ assignment <$> cell Overfull.solve Overfull.materials Overfull.bins
    = Ok ["M1 -> B1"]
  ∧ load (varValue Overfull.solved) Overfull.materials Overfull.bins "B1" = 20
  ∧ capacity <$> Overfull.bins = [10]
  ∧ within_capacity (varValue Overfull.solved)
      Overfull.materials Overfull.bins = false.
Proof.
  assert (unique_ids Overfull.materials Overfull.bins) as Hu
    by (split; by_eval).
  assert (∀ item, item ∈ Overfull.materials → 0 ≤ size item) as Hsizes.
  { apply Forall_forall. vm_compute. repeat constructor; discriminate. }
  split_and!.
  - exists (model_rows Overfull.materials Overfull.bins).
    split; [by apply build_model_rows|]. split; [elem_of_eval|].
    intros vv. apply (infeasible_when_demand_exceeds_supply _ _ (λ _, true));
      [done|vm_compute; reflexivity].
  - intros vv. apply (no_complete_valid_mapping _ _ (λ _, true));
      [done|done|vm_compute; reflexivity].
  - vm_compute. reflexivity.
  - vm_compute. reflexivity.
  - reflexivity.
  - vm_compute. reflexivity.
Qed.

(** C5, at a catalog whose only material is fragile and whose only bin is
    special: the dictionary records 0 for the pair and the model has the
    constraint [x <= 0] and no feasible point, so no printed mapping passes
    the three checks, whatever the solver leaves; the cell does not read the
    status, and with the variable left at 1 it prints "M1 -> B3", a pair
    whose entry is 0. *)
Theorem printed_pair_is_incompatible :
  compatibility Misplaced.materials Misplaced.bins !! ("M1", "B3") = Some 0
  ∧ (∃ model, build_model Misplaced.materials Misplaced.bins = Ok model
       ∧ {| expr := [(x "M1" "B3", 1)]; sense := LpConstraintLE; rhs := 0 |}
         ∈ constraints model
       ∧ ∀ vv, feasible model vv = false)
  ∧ (∀ vv, printed_once vv Misplaced.materials Misplaced.bins
           && within_capacity vv Misplaced.materials Misplaced.bins
           && printed_compatible vv Misplaced.materials Misplaced.bins
           = false)
  ∧ assignment <$> cell Misplaced.solve Misplaced.materials Misplaced.bins
    = Ok ["M1 -> B3"]
  ∧ assigned (varValue Misplaced.solved) Misplaced.materials Misplaced.bins
    = [("M1", "B3")]
  ∧ printed_compatible (varValue Misplaced.solved)
      Misplaced.materials Misplaced.bins = false.
Proof.
  assert (unique_ids Misplaced.materials Misplaced.bins) as Hu
    by (split; by_eval).
  assert (∀ item, item ∈ Misplaced.materials → 0 ≤ size item) as Hsizes.
  { apply Forall_forall. vm_compute. repeat constructor; discriminate. }
  split_and!.
  - vm_compute. reflexivity.
  - exists (model_rows Misplaced.materials Misplaced.bins).
    split; [by apply build_model_rows|]. split; [elem_of_eval|].
    intros vv.
    apply (infeasible_when_demand_exceeds_supply _ _ (has_tag "fragile"));
      [done|vm_compute; reflexivity].
  - intros vv. apply (no_complete_valid_mapping _ _ (has_tag "fragile"));
      [done|done|vm_compute; reflexivity].
  - vm_compute. reflexivity.
  - vm_compute. reflexivity.
  - vm_compute. reflexivity.
Qed.
